(** * Sheet-music key-change remover: a shallow embedding

    The pipeline of [remove_key_change_complete.py] edits a score parsed by
    music21.  The score object model (streams of positioned elements,
    pitches, key signatures) belongs to music21; it is rendered here as plain
    data, and every function of the script is rendered as a function over
    that data.  In-place mutation of the parsed score becomes the
    construction of the mutated score. *)

From Stdlib Require Import QArith Ascii DecimalString DecimalNat Sorted.
From stdpp Require Import base decidable option list numbers strings.

Open Scope Z_scope.

(** ** Pitches and the interval [-m2] *)

Module Pitch.

(** The seven letter names of a pitch. *)
Inductive Step := C | D | E | F | G | A | B.

(** A pitch: letter name, accidental (signed number of semitones of
    alteration) and octave. *)
Record t := mk { step : Step; alter : Z; octave : Z }.

(** Semitones of the natural letter above the C of its octave. *)
Definition step_semitones (s : Step) : Z :=
  match s with
  | C => 0 | D => 2 | E => 4 | F => 5 | G => 7 | A => 9 | B => 11
  end.

(** The sounding pitch in semitones (music21's pitch space, C4 = 60). *)
Definition semitones (p : t) : Z :=
  12 * (octave p + 1) + step_semitones (step p) + alter p.

(** [interval.Interval('-m2')]: a minor second down.  The letter name moves
    one step down (below C lies the B of the octave below) and the
    accidental is set so that the pitch sounds one semitone lower.
    music21 respells a result that would need more than four accidentals;
    the respelling keeps the sounding pitch. *)
Definition minor_second_down (p : t) : t :=
  match step p with
  | C => mk B (alter p) (octave p - 1)
  | D => mk C (alter p + 1) (octave p)
  | E => mk D (alter p + 1) (octave p)
  | F => mk E (alter p) (octave p)
  | G => mk F (alter p + 1) (octave p)
  | A => mk G (alter p + 1) (octave p)
  | B => mk A (alter p + 1) (octave p)
  end.

End Pitch.

(** The constants of [remove_key_change]. *)

(** [ks.sharps >= 5] *)
Definition threshold_sharps : Z := 5.

(** [key.KeySignature(-4)], F minor *)
Definition replacement_key : Z := -4.

(** [interval.Interval('-m2')] counted in semitones *)
Definition semitone_shift : Z := -1.

(** [transpose_interval = interval.Interval('-m2')] applied to one pitch. *)
Definition transpose_pitch (p : Pitch.t) : Pitch.t := Pitch.minor_second_down p.

(** ** The score object model *)

(** [note.Note]: one pitch and an optional lyric, the text last assigned to
    [n.lyric] (how music21 splits hyphens off that text is left out). *)
Record Note := mkNote { pitch : Pitch.t; lyric : option string }.

(** [chord.Chord]: simultaneous pitches; a chord can carry a lyric of its
    own in music21, which the script never sets. *)
Record Chord := mkChord { pitches : list Pitch.t; chord_lyric : option string }.

(** What [stream.notesAndRests] ranges over. *)
Inductive GeneralNote :=
| GNote (n : Note)
| GChord (c : Chord)
| GRest.

(** Offsets inside a stream, in quarter lengths. *)
Abbreviation Offset := Q.

(** The elements a parsed [Measure] holds directly.  A [stream.Voice] is a
    nested stream of notes, chords and rests; the MusicXML reader puts key
    signatures in the measure itself, never inside a voice.  [EOther] stands
    for clefs, time signatures, bar lines and the like, named by class. *)
Inductive Element :=
| EGeneral (g : GeneralNote)
| EKeySignature (sharps : Z)
| EVoice (v : list (Offset * GeneralNote))
| EOther (class : string).

(** A [stream.Measure]: its number and its elements with their offsets, in
    the order in which they were put into the stream. *)
Record Measure := mkMeasure { number : Z; elements : list (Offset * Element) }.

(** A [stream.Part] is the sequence of its measures, a score the sequence of
    its parts ([score.parts]). *)
Abbreviation Part := (list Measure).
Abbreviation Score := (list (list Measure)).

(** ** Streams

    music21 walks a stream in the order of its sort keys: offset first, and
    among elements of one class at one offset the order in which they were
    put in.  [sort_by_offset] is that order for a list of elements of one
    class. *)

Fixpoint insert_by_offset {A} (x : Offset * A) (l : list (Offset * A))
  : list (Offset * A) :=
  match l with
  | [] => [x]
  | y :: l' =>
      if Qle_bool x.1 y.1 then x :: y :: l' else y :: insert_by_offset x l'
  end.

Definition sort_by_offset {A} (l : list (Offset * A)) : list (Offset * A) :=
  foldr insert_by_offset [] l.

Definition key_signature_of (e : Offset * Element) : option (Offset * Z) :=
  match e.2 with
  | EKeySignature s => Some (e.1, s)
  | _ => None
  end.

(** [measure.getElementsByClass('KeySignature')]: the key signatures that
    are direct elements of the measure, each with its offset. *)
Definition getKeySignatures (m : Measure) : list (Offset * Z) :=
  sort_by_offset (omap key_signature_of (elements m)).

(** Two offsets are the same number written the same way. *)
Definition offset_eqb (a b : Offset) : bool :=
  (Qnum a =? Qnum b) && (Qden a =? Qden b)%positive.

(** Does the stream entry [e] hold the key signature [ks]? *)
Definition holds_key_signature (ks : Offset * Z) (e : Offset * Element) : bool :=
  match e.2 with
  | EKeySignature s => offset_eqb ks.1 e.1 && (ks.2 =? s)
  | _ => false
  end.

(** [measure.remove(ks)].  music21 removes the object itself; two key
    signatures with the same sharps at the same offset are the same value
    here, and the first of them is taken out. *)
Fixpoint stream_remove (ks : Offset * Z) (es : list (Offset * Element))
  : list (Offset * Element) :=
  match es with
  | [] => []
  | e :: es' =>
      if holds_key_signature ks e then es' else e :: stream_remove ks es'
  end.

Definition measure_remove (ks : Offset * Z) (m : Measure) : Measure :=
  mkMeasure (number m) (stream_remove ks (elements m)).

(** [measure.insert(offset, element)] *)
Definition measure_insert (o : Offset) (e : Element) (m : Measure) : Measure :=
  mkMeasure (number m) (elements m ++ [(o, e)]).

(** ** Transposition *)

(** [element.transpose(transpose_interval, inPlace=True)] on a note and on a
    chord. *)
Definition transpose_note (n : Note) : Note :=
  mkNote (transpose_pitch (pitch n)) (lyric n).

Definition transpose_chord (c : Chord) : Chord :=
  mkChord (transpose_pitch <$> pitches c) (chord_lyric c).

(** The body of the loop over [measure.flatten()] for one element: notes and
    chords are transposed, anything else is passed over. *)
Definition transpose_general (g : GeneralNote) : GeneralNote :=
  match g with
  | GNote n => GNote (transpose_note n)
  | GChord c => GChord (transpose_chord c)
  | GRest => GRest
  end.

(** [measure.flatten()] reaches the direct elements of the measure and the
    elements of its voices, each once. *)
Definition transpose_element (e : Element) : Element :=
  match e with
  | EGeneral g => EGeneral (transpose_general g)
  | EVoice v => EVoice (prod_map id transpose_general <$> v)
  | EKeySignature s => EKeySignature s
  | EOther c => EOther c
  end.

Definition transpose_measure (m : Measure) : Measure :=
  mkMeasure (number m) (prod_map id transpose_element <$> elements m).

(** ** [remove_key_change] *)

(** The three variables the loop over a part keeps. *)
Record PartState := mkPartState {
  in_modulation : bool;
  key_sigs_replaced : nat;
  measures_transposed : nat
}.

Definition initial_state : PartState := mkPartState false 0 0.

(** One round of [for ks in ks_list]. *)
Definition replace_key_signature (acc : Measure * PartState) (ks : Offset * Z)
  : Measure * PartState :=
  let (m, st) := acc in
  if bool_decide (threshold_sharps ≤ ks.2) then
    (measure_insert 0 (EKeySignature replacement_key) (measure_remove ks m),
     mkPartState true (S (key_sigs_replaced st)) (measures_transposed st))
  else (m, st).

(** The body of [for m_idx, measure in enumerate(measures)]. *)
Definition process_measure (st : PartState) (m : Measure) : Measure * PartState :=
  let ks_list := getKeySignatures m in
  let (m1, st1) := fold_left replace_key_signature ks_list (m, st) in
  if in_modulation st1 then
    (transpose_measure m1,
     mkPartState (in_modulation st1) (key_sigs_replaced st1)
       (S (measures_transposed st1)))
  else (m1, st1).

(** The loop over the measures of one part. *)
Fixpoint process_measures (st : PartState) (ms : list Measure)
  : list Measure * PartState :=
  match ms with
  | [] => ([], st)
  | m :: ms' =>
      let (m', st') := process_measure st m in
      let (out, st'') := process_measures st' ms' in
      (m' :: out, st'')
  end.

(** One round of [for part_idx, part in enumerate(score.parts)]: the part
    as it is left, and the two counts printed for it. *)
Definition process_part (part : list Measure) : list Measure * (nat * nat) :=
  let (out, st) := process_measures initial_state part in
  (out, (key_sigs_replaced st, measures_transposed st)).

(** [remove_key_change] on the parsed score: the score that is written
    out, and the line of counts printed for each part. *)
Definition remove_key_change (score : list (list Measure))
  : list (list Measure) * list (nat * nat) :=
  let r := process_part <$> score in (fst <$> r, snd <$> r).

(** ** [add_lyrics] *)

(** The table of syllables written out in [add_lyrics]. *)
Definition lyrics : list string :=
  [ (* Verse 1 *)
    "When"; "peace,"; "like"; "a"; "riv"; "-"; "er,"; "at"; "-"; "tend"; "-";
    "eth"; "my";
    "way,"; "When"; "sor"; "-"; "rows"; "like"; "sea"; "bil"; "-"; "lows";
    "roll—";
    "What"; "-"; "ev"; "-"; "er"; "my"; "lot,"; "Thou"; "hast"; "taught"; "me";
    "to"; "say,";
    String "034"%char "It"; "is"; "well,"; "it"; "is"; "well"; "with"; "my";
    "soul." +:+ String "034"%char "";
    (* Verse 2 *)
    "Though"; "Sat"; "-"; "an"; "should"; "buf"; "-"; "fet,"; "though";
    "tri"; "-"; "als"; "should"; "come,";
    "Let"; "this"; "blest"; "as"; "-"; "sur"; "-"; "ance"; "con"; "-"; "trol:";
    "That"; "Christ"; "hath"; "re"; "-"; "gard"; "-"; "ed"; "my";
    "help"; "-"; "less"; "es"; "-"; "tate";
    "And"; "hath"; "shed"; "His"; "own"; "blood"; "for"; "my"; "soul.";
    (* Refrains *)
    "It"; "is"; "well"; "with"; "my"; "soul;";
    "It"; "is"; "well"; "with"; "my"; "soul;";
    "It"; "is"; "well,"; "it"; "is"; "well"; "with"; "my"; "soul." ]%string.

(** A note of a part is named by where it sits: the index of its measure,
    the index of the element of that measure, and, for a note inside a voice,
    its index in the voice.  This is what a reference to the note object
    amounts to. *)
Record NoteRef := mkRef {
  ref_measure : nat;
  ref_element : nat;
  ref_voice : option nat
}.

#[global] Instance NoteRef_eq_dec : EqDecision NoteRef.
Proof. solve_decision. Defined.

(** The notes, chords and rests that [flatten()] finds under one element of
    measure [mi], each with its offset in the measure and its place. *)
Definition element_flat (mi ei : nat) (e : Offset * Element)
  : list (Offset * (NoteRef * GeneralNote)) :=
  match e.2 with
  | EGeneral g => [(e.1, (mkRef mi ei None, g))]
  | EVoice v =>
      imap (λ vi og, ((e.1 + og.1)%Q, (mkRef mi ei (Some vi), og.2))) v
  | _ => []
  end.

Definition measure_flat (mi : nat) (m : Measure)
  : list (Offset * (NoteRef * GeneralNote)) :=
  mjoin (imap (element_flat mi) (elements m)).

Definition is_not_rest (x : Offset * (NoteRef * GeneralNote)) : bool :=
  match x.2.2 with
  | GRest => false
  | _ => true
  end.

(** [part.flatten().notes]: the notes and chords of the part in the order
    of the flattened stream.  Measures follow one another in time, so the
    order is measure by measure, and by offset inside a measure. *)
Definition part_flatten_notes (part : list Measure)
  : list (Offset * (NoteRef * GeneralNote)) :=
  mjoin (imap (λ mi m, sort_by_offset (List.filter is_not_rest (measure_flat mi m)))
           part).

Definition note_ref_of (x : Offset * (NoteRef * GeneralNote)) : option NoteRef :=
  match x.2.2 with
  | GNote _ => Some x.2.1
  | _ => None
  end.

(** [[n for n in part.flatten().notes if isinstance(n, note.Note)]] *)
Definition notes_list (part : list Measure) : list NoteRef :=
  omap note_ref_of (part_flatten_notes part).

(** Reading the object a reference names. *)
Definition lookup_general (part : list Measure) (r : NoteRef) : option GeneralNote :=
  m ← part !! ref_measure r;
  e ← elements m !! ref_element r;
  match e.2, ref_voice r with
  | EGeneral g, None => Some g
  | EVoice v, Some vi => snd <$> v !! vi
  | _, _ => None
  end.

Definition lookup_note (part : list Measure) (r : NoteRef) : option Note :=
  match lookup_general part r with
  | Some (GNote n) => Some n
  | _ => None
  end.

(** [n.lyric = lyric] on the note a reference names. *)
Definition set_general_lyric (s : string) (g : GeneralNote) : GeneralNote :=
  match g with
  | GNote n => GNote (mkNote (pitch n) (Some s))
  | _ => g
  end.

Definition set_element_lyric (vi : option nat) (s : string) (e : Element) : Element :=
  match e, vi with
  | EGeneral g, None => EGeneral (set_general_lyric s g)
  | EVoice v, Some i => EVoice (alter (prod_map id (set_general_lyric s)) i v)
  | _, _ => e
  end.

Definition set_lyric (r : NoteRef) (s : string) (part : list Measure) : list Measure :=
  alter (λ m, mkMeasure (number m)
                (alter (prod_map id (set_element_lyric (ref_voice r) s))
                   (ref_element r) (elements m)))
    (ref_measure r) part.

(** One round of [for i, lyric in enumerate(lyrics)]. *)
Definition assign_lyric (notes : list NoteRef) (part : list Measure)
    (il : nat * string) : list Measure :=
  if bool_decide (il.1 < length notes)%nat then
    match notes !! il.1 with
    | Some r => set_lyric r il.2 part
    | None => part
    end
  else part.

(** The body of the loop over [score.parts[:1]]: the part with its lyrics,
    and the number of lyrics printed as added. *)
Definition add_lyrics_part (syllables : list string) (part : list Measure)
  : list Measure * nat :=
  let notes := notes_list part in
  (fold_left (assign_lyric notes) (imap pair syllables) part,
   Nat.min (length syllables) (length notes)).

(** [add_lyrics] for a table of syllables: the score written out and the
    counts printed. *)
Definition add_lyrics_with (syllables : list string) (score : list (list Measure))
  : list (list Measure) * list nat :=
  let r := add_lyrics_part syllables <$> take 1 score in
  ((fst <$> r) ++ drop 1 score, snd <$> r).

Definition add_lyrics (score : list (list Measure)) : list (list Measure) * list nat :=
  add_lyrics_with lyrics score.

(** ** The stages around the transform *)

(** The exceptions the script raises or lets through. *)
Inductive Exception :=
| ValueError (msg : string)
| RuntimeError (msg : string)
| TimeoutExpired (cmd : list string) (timeout : Z) (output stderr : string).

(** What running an external command with a time limit comes to: it ends
    with a status and its captured output, or it is still running when the
    limit is reached and is stopped, with what it had written until then. *)
Inductive RunOutcome :=
| CompletedProcess (returncode : Z) (stdout stderr : string)
| TimedOut (stdout stderr : string).

(** [os.path.basename] *)
Definition has_slash (p : string) : bool :=
  match String.index 0 "/" p with
  | Some _ => true
  | None => false
  end.

Fixpoint basename (p : string) : string :=
  match p with
  | EmptyString => EmptyString
  | String c rest =>
      if has_slash rest then basename rest
      else if Ascii.eqb c "/" then rest else p
  end.

(** [s.replace('.png', '')] *)
Fixpoint remove_png (s : string) : string :=
  match s with
  | String "." (String "p" (String "n" (String "g" rest))) => remove_png rest
  | String c rest => String c (remove_png rest)
  | EmptyString => EmptyString
  end.

Definition ends_with_slash (p : string) : bool :=
  match String.get (String.length p - 1) p with
  | Some c => Ascii.eqb c "/"
  | None => false
  end.

(** [os.path.join] of two components *)
Definition path_join (a b : string) : string :=
  if String.prefix "/" b then b
  else if (String.length a =? 0)%nat || ends_with_slash a then a +:+ b
  else a +:+ "/" +:+ b.

(** [sorted] on a list of strings *)
Fixpoint insert_sorted (x : string) (l : list string) : list string :=
  match l with
  | [] => [x]
  | y :: l' => if String.leb x y then x :: y :: l' else y :: insert_sorted x l'
  end.

Definition sorted (l : list string) : list string := foldr insert_sorted [] l.

Section Pipeline.

(** The world outside the script: the file system and the external tools. *)
Context {World : Type}.

(** Running a command with a time limit in seconds. *)
Variable run_command : list string → Z → World → RunOutcome * World.
(** [glob.glob] *)
Variable glob_glob : string → World → list string.
(** [os.makedirs(path, exist_ok=True)] *)
Variable os_makedirs : string → World → World.
(** [converter.parse]: the score a file holds. *)
Variable converter_parse : string → list (list Measure).

(** The world together with the record of the commands run so far. *)
Record Env := mkEnv { world : World; calls : list (list string) }.

(** [subprocess.run(cmd, capture_output=True, timeout=t)] *)
Definition subprocess_run (cmd : list string) (t : Z) (env : Env)
  : (Exception + Z * string * string) * Env :=
  let (r, w) := run_command cmd t (world env) in
  let env' := mkEnv w (calls env ++ [cmd]) in
  match r with
  | CompletedProcess rc out err => (inr (rc, out, err), env')
  | TimedOut out err => (inl (TimeoutExpired cmd t out err), env')
  end.

Definition oemer_command (output_dir img_path : string) : list string :=
  ["oemer"; img_path; "-o";
   path_join output_dir (remove_png (basename img_path))]%string.

(** The loop [for img_path in image_paths[1:]], run over the images it is
    given, with [xml_files] as collected so far. *)
Fixpoint ocr_pages (output_dir : string) (imgs : list string)
    (xml_files : list string) (env : Env) : (Exception + list string) * Env :=
  match imgs with
  | [] => (inr xml_files, env)
  | img_path :: imgs' =>
      let page_num := remove_png (basename img_path) in
      let page_output_dir := path_join output_dir page_num in
      let env1 := mkEnv (os_makedirs page_output_dir (world env)) (calls env) in
      match subprocess_run ["oemer"; img_path; "-o"; page_output_dir]%string
              600 env1 with
      | (inl e, env2) => (inl e, env2)
      | (inr _, env2) =>
          let xml_pattern := path_join page_output_dir "*.musicxml" in
          let found_files := glob_glob xml_pattern (world env2) in
          let xml_files' :=
            match found_files with
            | f :: _ => xml_files ++ [f]
            | [] => xml_files
            end in
          ocr_pages output_dir imgs' xml_files' env2
      end
  end.

Definition ocr_images_to_musicxml (image_paths : list string)
    (output_dir : string) (env : Env) : (Exception + list string) * Env :=
  let env0 := mkEnv (os_makedirs output_dir (world env)) (calls env) in
  match ocr_pages output_dir (drop 1 image_paths) [] env0 with
  | (inr xml_files, env') => (inr (sorted xml_files), env')
  | (inl e, env') => (inl e, env')
  end.

(** [combined.parts[part_idx].append(measure)] for each measure of a part. *)
Definition append_measures (part_idx : nat) (combined : list (list Measure))
    (measures : list Measure) : list (list Measure) :=
  fold_left (λ c measure, alter (λ p, p ++ [measure]) part_idx c)
    measures combined.

(** One round of [for xml_file in xml_files[1:]], on the parsed page. *)
Definition append_page (combined score : list (list Measure))
  : list (list Measure) :=
  fold_left
    (λ c ip, if bool_decide (ip.1 < length c)%nat
             then append_measures ip.1 c ip.2 else c)
    (imap pair score) combined.

(** [combine_musicxml_pages]: the combined score that is written out. *)
Definition combine_musicxml_pages (xml_files : list string)
  : Exception + list (list Measure) :=
  match xml_files with
  | [] => inl (ValueError "No MusicXML files to combine!")
  | first :: others =>
      inr (fold_left (λ combined xml_file,
                        append_page combined (converter_parse xml_file))
             others (converter_parse first))
  end.

Definition musescore_command (musicxml_path pdf_path : string) : list string :=
  ["musescore3"; musicxml_path; "-o"; pdf_path]%string.

(** [export_to_pdf] *)
Definition export_to_pdf (musicxml_path pdf_path : string) (env : Env)
  : (Exception + string) * Env :=
  match subprocess_run ["musescore3"; musicxml_path; "-o"; pdf_path]%string
          120 env with
  | (inl e, env') => (inl e, env')
  | (inr (returncode, _, stderr), env') =>
      if returncode =? 0 then (inr pdf_path, env')
      else (inl (RuntimeError ("MuseScore export failed: " +:+ stderr)), env')
  end.

End Pipeline.

(** ** Notions the statements below are written in *)

(** A stream entry that is a key signature with at least
    [threshold_sharps] sharps. *)
Definition qualifies (e : Offset * Element) : bool :=
  match e.2 with
  | EKeySignature s => bool_decide (threshold_sharps ≤ s)
  | _ => false
  end.

(** A measure triggers modulation when it holds such a key signature. *)
Definition triggers (m : Measure) : bool := existsb qualifies (elements m).

(** The index of the first measure of a part that triggers modulation. *)
Definition first_trigger (part : list Measure) : option nat :=
  fst <$> list_find (λ m, triggers m = true) part.

(** The number of qualifying key signatures of a measure and of a part. *)
Definition qualifying_count (m : Measure) : nat :=
  length (List.filter qualifies (elements m)).

Definition part_qualifying_count (part : list Measure) : nat :=
  sum_list (qualifying_count <$> part).

(** Every pitch of a measure: those of its notes and those inside its
    chords, in its voices too. *)
Definition general_pitches (g : GeneralNote) : list Pitch.t :=
  match g with
  | GNote n => [pitch n]
  | GChord c => pitches c
  | GRest => []
  end.

Definition element_pitches (e : Element) : list Pitch.t :=
  match e with
  | EGeneral g => general_pitches g
  | EVoice v => v ≫= (λ og, general_pitches og.2)
  | _ => []
  end.

Definition measure_pitches (m : Measure) : list Pitch.t :=
  elements m ≫= (λ oe, element_pitches oe.2).

(** The key signatures of a measure as they lie in it, with their
    offsets. *)
Definition key_signatures (m : Measure) : list (Offset * Z) :=
  omap key_signature_of (elements m).

(** Replacement where the key signature stands, as the specification words
    it: each qualifying key signature gives way to [replacement_key] at the
    same place of the same measure. *)
Definition replace_in_place (m : Measure) : Measure :=
  mkMeasure (number m)
    ((λ e, if qualifies e then (e.1, EKeySignature replacement_key) else e)
       <$> elements m).

(** Replacement as the code does it: the qualifying key signatures are
    taken out and as many [replacement_key] are put at offset 0. *)
Definition replaced_elements (m : Measure) : list (Offset * Element) :=
  List.filter (λ e, negb (qualifies e)) (elements m)
  ++ replicate (qualifying_count m) (0%Q, EKeySignature replacement_key).

(** All chords of a part, and all its notes with their lyrics taken off. *)
Definition general_chords (g : GeneralNote) : list Chord :=
  match g with
  | GChord c => [c]
  | _ => []
  end.

Definition element_chords (e : Element) : list Chord :=
  match e with
  | EGeneral g => general_chords g
  | EVoice v => v ≫= (λ og, general_chords og.2)
  | _ => []
  end.

Definition part_chords (part : list Measure) : list Chord :=
  part ≫= (λ m, elements m ≫= (λ oe, element_chords oe.2)).

Definition strip_general (g : GeneralNote) : GeneralNote :=
  match g with
  | GNote n => GNote (mkNote (pitch n) None)
  | _ => g
  end.

Definition strip_element (e : Element) : Element :=
  match e with
  | EGeneral g => EGeneral (strip_general g)
  | EVoice v => EVoice (prod_map id strip_general <$> v)
  | _ => e
  end.

(** A part with the lyrics of its notes taken off: what [add_lyrics] must
    leave as it is. *)
Definition strip_lyrics (part : list Measure) : list Measure :=
  (λ m, mkMeasure (number m) (prod_map id strip_element <$> elements m)) <$> part.

(** The key signature of an entry and whether the entry qualifies. *)
Definition ks_qualifies (ks : Offset * Z) : bool :=
  bool_decide (threshold_sharps ≤ ks.2).

(** The measure as the loop over its key signatures leaves it. *)
Definition replaced_measure (m : Measure) : Measure :=
  mkMeasure (number m) (replaced_elements m).

(** How many measures the loop transposes, given where it starts from. *)
Fixpoint transposed_from (flag : bool) (ms : list Measure) : nat :=
  match ms with
  | [] => 0
  | m :: ms' =>
      if flag || triggers m then S (length ms') else transposed_from false ms'
  end.

(** The place an entry of the flattened stream names. *)
Definition entry_ref (x : Offset * (NoteRef * GeneralNote)) : NoteRef := x.2.1.

(** The claim of a replacement where the key signature stood, for a whole
    score. *)
Definition replaces_in_place (score : list (list Measure)) : Prop :=
  ∀ p part j m,
    score !! p = Some part → part !! j = Some m →
    ∃ part' m',
      (remove_key_change score).1 !! p = Some part' ∧ part' !! j = Some m' ∧
      key_signatures m' = key_signatures (replace_in_place m).

(** The claim on the notes beyond the last syllable as it is worded: after
    the overlay they are without a lyric. *)
Definition remaining_without_lyric (syllables : list string)
    (part : list Measure) : Prop :=
  ∀ rest, ∃ part',
    (add_lyrics_with syllables (part :: rest)).1 = part' :: rest ∧
    ∀ i r,
      notes_list part !! i = Some r → (length syllables ≤ i)%nat →
      ∃ n, lookup_note part' r = Some n ∧ lyric n = None.

(** The claim on [export_to_pdf] as it is worded, for a given renderer: an
    error is raised exactly when the renderer ends with a status other than
    0, the error then carries the diagnostic text of the renderer, and with
    status 0 the path of the PDF comes back. *)
Definition raises_iff_renderer_fails {World}
    (run_command : list string → Z → World → RunOutcome * World) : Prop :=
  ∀ (musicxml_path pdf_path : string) (env : Env),
    let out := (run_command (musescore_command musicxml_path pdf_path) 120
                  (world env)).1 in
    let res := (export_to_pdf run_command musicxml_path pdf_path env).1 in
    ((∃ e, res = inl e) ↔ (∃ rc so se, out = CompletedProcess rc so se ∧ rc ≠ 0))
    ∧ (∀ e, res = inl e →
         ∃ rc so se pre, out = CompletedProcess rc so se ∧
                         e = RuntimeError (pre +:+ se))
    ∧ (∀ so se, out = CompletedProcess 0 so se → res = inr pdf_path).

(** A renderer that reports a missing font and is still running when its
    time is up. *)
Definition hanging_renderer (cmd : list string) (t : Z) (w : unit)
  : RunOutcome * unit := (TimedOut "" "font not found", w).

(** ** Trying the functions on small scores *)

Definition c4 : Pitch.t := Pitch.mk Pitch.C 0 4.
Definition d4 : Pitch.t := Pitch.mk Pitch.D 0 4.
Definition f_sharp4 : Pitch.t := Pitch.mk Pitch.F 1 4.

Definition plain_note (p : Pitch.t) : Element := EGeneral (GNote (mkNote p None)).

(** Three measures, six sharps announced in the second one. *)
Definition three_measures : list Measure :=
  [ mkMeasure 1 [(0%Q, EKeySignature 1); (0%Q, plain_note c4)];
    mkMeasure 2 [(0%Q, EKeySignature 6); (0%Q, plain_note f_sharp4)];
    mkMeasure 3 [(0%Q, plain_note d4);
                 (1%Q, EGeneral (GChord (mkChord [c4; d4] None)))] ].

(** A part that never reaches five sharps. *)
Definition quiet_part : list Measure :=
  [ mkMeasure 1 [(0%Q, EKeySignature 4); (0%Q, plain_note c4)] ].

(** Six sharps announced in the middle of a measure. *)
Definition mid_measure_change : Measure :=
  mkMeasure 7 [(0%Q, plain_note c4); (2%Q, EKeySignature 6); (2%Q, plain_note d4)].

(** Two voices sounding together, and a chord in between. *)
Definition two_voices : list Measure :=
  [ mkMeasure 1
      [ (0%Q, EVoice [(0%Q, GNote (mkNote c4 None)); (2%Q, GNote (mkNote d4 None))]);
        (0%Q, EVoice [(0%Q, GRest); (1%Q, GChord (mkChord [c4] None));
                      (2%Q, GNote (mkNote f_sharp4 None))]) ];
    mkMeasure 2 [(0%Q, plain_note c4)] ].

Definition sung_note (p : Pitch.t) (s : string) : Element :=
  EGeneral (GNote (mkNote p (Some s))).

(** Two notes that carry a lyric already. *)
Definition sung_already : list Measure :=
  [ mkMeasure 1 [(0%Q, sung_note c4 "x"); (1%Q, sung_note d4 "y")] ].

(** 117 measures of one note each, every note with a lyric: one note more
    than the script has syllables. *)
Definition sung_through : list Measure :=
  (λ i, mkMeasure (Z.of_nat i + 1) [(0%Q, sung_note c4 "la")]) <$> seq 0 117.

(** ** The rest of the script *)

(** [f'{n:02d}']: the decimal digits of [n], with a zero in front when
    there is one digit only. *)
Definition format_02d (n : nat) : string :=
  let digits := NilEmpty.string_of_uint (Nat.to_uint n) in
  if (String.length digits <? 2)%nat then "0" +:+ digits else digits.

(** [f'page_{i+1:02d}.png'] *)
Definition page_file (i : nat) : string :=
  "page_" +:+ format_02d (i + 1) +:+ ".png".

(** [xml_pattern]: where the files of a page are looked for. *)
Definition page_pattern (output_dir img_path : string) : string :=
  path_join (path_join output_dir (remove_png (basename img_path))) "*.musicxml".

(** A recogniser that never ends on the third page, and ends with status 1
    on the others; a directory listing with one file under every
    pattern. *)
Definition stuck_on_page_3 (cmd : list string) (t : Z) (w : unit)
  : RunOutcome * unit :=
  if bool_decide (cmd !! 1%nat = Some "img/page_03.png"%string)
  then (TimedOut "" "", w)
  else (CompletedProcess 1 "" "", w).

Definition always_status_1 (cmd : list string) (t : Z) (w : unit)
  : RunOutcome * unit := (CompletedProcess 1 "" "", w).

Definition one_file_found (pattern : string) (w : unit) : list string :=
  [pattern].

(** A world that is nothing but its score files: reading a file gives the
    score last written to it. *)
Definition memory_parse (path : string) (w : string → list (list Measure))
  : list (list Measure) := w path.

Definition memory_write (score : list (list Measure)) (path : string)
    (w : string → list (list Measure)) : string → list (list Measure) :=
  λ q, if String.eqb q path then score else w q.

(** A recogniser that always ends well, over such a world. *)
Definition always_status_0 (cmd : list string) (t : Z)
    (w : string → list (list Measure))
  : RunOutcome * (string → list (list Measure)) := (CompletedProcess 0 "" "", w).

Definition one_file_listed (pattern : string) (w : string → list (list Measure))
  : list string := [pattern].

(** What [os.path.join] puts in front of a relative second component. *)
Definition joined_prefix (d : string) : string :=
  if (String.length d =? 0)%nat || ends_with_slash d then d else d +:+ "/".

(** The number of measures of a score, all parts together. *)
Definition measure_count (score : list (list Measure)) : nat :=
  sum_list (length <$> score).

(** The path of a file found for the page numbered [i + 1]: a file [name]
    in the directory the recogniser is given for that page. *)
Definition page_result (output_dir : string) (i : nat) (name : string) : string :=
  path_join (path_join output_dir ("page_" +:+ format_02d (i + 1))) name.

(** How a run of the script ends. *)
Inductive Outcome :=
| Returned
| SystemExit (code : Z)
| Raised (e : Exception).

Section Script.

Context {World Image : Type}.

Variable run_command : list string → Z → World → RunOutcome * World.
Variable glob_glob : string → World → list string.
Variable os_makedirs : string → World → World.
(** [Path.mkdir(exist_ok=True)] *)
Variable path_mkdir : string → World → World.
(** [os.path.exists] *)
Variable path_exists : string → World → bool.
(** [convert_from_path(pdf_path, dpi=300)]: the pages as images. *)
Variable convert_from_path : string → World → list Image.
(** [image.save(image_path, 'PNG')] *)
Variable image_save : Image → string → World → World.
(** [converter.parse] and [score.write('musicxml', fp=...)] on the files of
    the world. *)
Variable parse_file : string → World → list (list Measure).
Variable write_file : list (list Measure) → string → World → World.

(** One round of [for i, image in enumerate(images)]. *)
Definition save_page (output_dir : string) (acc : list string * World)
    (ii : nat * Image) : list string * World :=
  let image_path := path_join output_dir (page_file ii.1) in
  (acc.1 ++ [image_path], image_save ii.2 image_path acc.2).

(** [pdf_to_images] *)
Definition pdf_to_images (pdf_path output_dir : string) (w : World)
  : list string * World :=
  let w0 := os_makedirs output_dir w in
  let images := convert_from_path pdf_path w0 in
  fold_left (save_page output_dir) (imap pair images) ([], w0).

(** [combine_musicxml_pages], [remove_key_change] and [add_lyrics] with
    their files: each parses what it is given, works on the score as above,
    and writes the score out. *)
Definition combine_musicxml_pages_file (xml_files : list string)
    (output_path : string) (w : World) : (Exception + string) * World :=
  match combine_musicxml_pages (λ f, parse_file f w) xml_files with
  | inl e => (inl e, w)
  | inr combined => (inr output_path, write_file combined output_path w)
  end.

Definition remove_key_change_file (input_musicxml output_musicxml : string)
    (w : World) : string * World :=
  let score := parse_file input_musicxml w in
  (output_musicxml, write_file (remove_key_change score).1 output_musicxml w).

Definition add_lyrics_file (input_musicxml output_musicxml : string)
    (w : World) : string * World :=
  let score := parse_file input_musicxml w in
  (output_musicxml, write_file (add_lyrics score).1 output_musicxml w).

Definition work_dir : string := "/tmp/sheet_music_work".

(** Steps 1 to 5 of [main]: from the PDF to [final.musicxml]. *)
Definition prepare_score (input_pdf : string) (env : Env)
  : (Exception + string) * Env :=
  let w0 := path_mkdir work_dir (world env) in
  let (image_paths, w1) :=
    pdf_to_images input_pdf (path_join work_dir "images") w0 in
  match ocr_images_to_musicxml run_command glob_glob os_makedirs image_paths
          (path_join work_dir "musicxml") (mkEnv w1 (calls env)) with
  | (inl e, env2) => (inl e, env2)
  | (inr xml_files, env2) =>
      match combine_musicxml_pages_file xml_files
              (path_join work_dir "combined.musicxml") (world env2) with
      | (inl e, w3) => (inl e, mkEnv w3 (calls env2))
      | (inr combined_xml, w3) =>
          let (fixed_xml, w4) :=
            remove_key_change_file combined_xml
              (path_join work_dir "fixed.musicxml") w3 in
          let (final_xml, w5) :=
            add_lyrics_file fixed_xml (path_join work_dir "final.musicxml") w4 in
          (inr final_xml, mkEnv w5 (calls env2))
      end
  end.

(** [main], on [sys.argv]. *)
Definition main (argv : list string) (env : Env) : Outcome * Env :=
  if (length argv <? 3)%nat then (SystemExit 1, env)
  else
    match argv !! 1%nat, argv !! 2%nat with
    | Some input_pdf, Some output_pdf =>
        if negb (path_exists input_pdf (world env)) then (SystemExit 1, env)
        else
          match prepare_score input_pdf env with
          | (inl e, env') => (Raised e, env')
          | (inr final_xml, env') =>
              match export_to_pdf run_command final_xml output_pdf env' with
              | (inl e, env'') => (Raised e, env'')
              | (inr _, env'') => (Returned, env'')
              end
          end
    | _, _ => (SystemExit 1, env)
    end.

End Script.

(** ** [transpose_key_change.py] *)

Section TransposeKeyChange.

(** [ks.transpose(transpose_interval, inPlace=True)] on the sharps of a key
    signature: music21's, taken as it comes. *)
Variable transpose_key_signature : Z → Z.

(** The loop over [measure.getElementsByClass('KeySignature')]. *)
Definition transpose_key_signatures (m : Measure) : Measure :=
  mkMeasure (number m)
    (prod_map id (λ e, match e with
                       | EKeySignature s => EKeySignature (transpose_key_signature s)
                       | _ => e
                       end) <$> elements m).

(** The body of [if measure.number >= start_measure]: notes and chords
    first, key signatures after. *)
Definition transposed_measure (m : Measure) : Measure :=
  transpose_key_signatures (transpose_measure m).

(** The loop over the measures of a part, with [transposed_count]. *)
Fixpoint transpose_measures_from (start_measure : Z) (transposed_count : nat)
    (ms : list Measure) : list Measure * nat :=
  match ms with
  | [] => ([], transposed_count)
  | measure :: ms' =>
      if bool_decide (start_measure ≤ number measure) then
        let (out, n) :=
          transpose_measures_from start_measure (S transposed_count) ms' in
        (transposed_measure measure :: out, n)
      else
        let (out, n) := transpose_measures_from start_measure transposed_count ms' in
        (measure :: out, n)
  end.

(** [transpose_key_change] on the parsed score: the score written out, and
    for each part the two numbers printed, its measures and the measures
    transposed. *)
Definition transpose_key_change (score : list (list Measure)) (start_measure : Z)
  : list (list Measure) * list (nat * nat) :=
  let r := (λ part, let (out, n) := transpose_measures_from start_measure 0 part in
                    (out, (length part, n))) <$> score in
  (fst <$> r, snd <$> r).

End TransposeKeyChange.

(** ** Further notions *)

(** The elements of a measure that are not key signatures. *)
Definition not_key_signature (e : Offset * Element) : bool :=
  match e.2 with
  | EKeySignature _ => false
  | _ => true
  end.

Definition other_elements (m : Measure) : list (Offset * Element) :=
  List.filter not_key_signature (elements m).

(** Is measure [j] of a part reached by the modulation: does it, or a
    measure before it, hold a qualifying key signature? *)
Definition modulated (part : list Measure) (j : nat) : bool :=
  existsb triggers (take (S j) part).

(** The notes, chords and rests under an element and in a measure, each
    with its offset in the measure, in the order [flatten()] meets them. *)
Definition element_events (e : Offset * Element) : list (Offset * GeneralNote) :=
  match e.2 with
  | EGeneral g => [(e.1, g)]
  | EVoice v => (λ og, ((e.1 + og.1)%Q, og.2)) <$> v
  | _ => []
  end.

Definition measure_events (m : Measure) : list (Offset * GeneralNote) :=
  elements m ≫= element_events.

Definition note_of (g : GeneralNote) : option Note :=
  match g with
  | GNote n => Some n
  | _ => None
  end.

(** The notes of a part as [part.flatten().notes] yields them, chords left
    out: the objects [notes_list] refers to. *)
Definition notes_in_order (part : list Measure) : list Note :=
  omap (λ x, note_of x.2.2) (part_flatten_notes part).

(** The notes of one measure in the order of their offsets. *)
Definition measure_notes_in_order (m : Measure) : list Note :=
  omap (λ og, note_of og.2)
    (sort_by_offset
       (List.filter (λ og, match og.2 with GRest => false | _ => true end)
          (measure_events m))).

(** The rest of a small world for trying [main]: directories need no
    making, saving an image changes no score file, the only file there is
    besides the score files is [in.pdf], of two pages or of one, and every
    score file holds the three measures above. *)
Definition no_directory (path : string) (w : string → list (list Measure))
  : string → list (list Measure) := w.

Definition no_image_file (image : unit) (path : string)
    (w : string → list (list Measure)) : string → list (list Measure) := w.

Definition only_in_pdf (path : string) (w : string → list (list Measure)) : bool :=
  String.eqb path "in.pdf".

Definition two_pages (pdf_path : string) (w : string → list (list Measure))
  : list unit := [tt; tt].

Definition one_page (pdf_path : string) (w : string → list (list Measure))
  : list unit := [tt].

Definition every_file_three_measures : string → list (list Measure) :=
  λ _, [three_measures].

(** * Properties *)

(** ** The functions at work *)

(** F sharp goes to E sharp, C to the B below. *)
Example transpose_f_sharp4 : transpose_pitch f_sharp4 = Pitch.mk Pitch.E 1 4.
Proof. reflexivity. Qed.

Example transpose_c4 : transpose_pitch c4 = Pitch.mk Pitch.B 0 3.
Proof. reflexivity. Qed.

(** Three measures with six sharps in the second: the first is kept, the
    second gets four flats and is transposed, the third is transposed. *)
Example three_measures_transformed :
  remove_key_change [three_measures]
  = ([[ mkMeasure 1 [(0%Q, EKeySignature 1); (0%Q, plain_note c4)];
        mkMeasure 2 [(0%Q, plain_note (Pitch.mk Pitch.E 1 4));
                     (0%Q, EKeySignature (-4))];
        mkMeasure 3 [(0%Q, plain_note (Pitch.mk Pitch.C 1 4));
                     (1%Q, EGeneral (GChord (mkChord [Pitch.mk Pitch.B 0 3;
                                                      Pitch.mk Pitch.C 1 4]
                                               None)))] ]],
     [(1%nat, 2%nat)]).
Proof. reflexivity. Qed.

(** The notes of two voices come in the order of their offsets; the chord
    and the rest are not among them. *)
Example two_voices_notes :
  notes_list two_voices
  = [mkRef 0 0 (Some 0%nat); mkRef 0 0 (Some 1%nat); mkRef 0 1 (Some 2%nat);
     mkRef 1 0 None].
Proof. reflexivity. Qed.

(** Five syllables on a part of four notes: four are used. *)
Example five_syllables_four_notes :
  (add_lyrics_with ["a"; "b"; "c"; "d"; "e"]%string [two_voices]).2 = [4%nat].
Proof. reflexivity. Qed.

Example page_directory :
  oemer_command "/tmp/sheet_music_work/musicxml" "/tmp/sheet_music_work/images/page_02.png"
  = ["oemer"; "/tmp/sheet_music_work/images/page_02.png"; "-o";
     "/tmp/sheet_music_work/musicxml/page_02"]%string.
Proof. reflexivity. Qed.

(** ** Pitches *)

Lemma semitones_transpose_pitch (p : Pitch.t) :
  Pitch.semitones (transpose_pitch p) = Pitch.semitones p + semitone_shift.
Proof.
  destruct p as [s a o]; unfold transpose_pitch, Pitch.minor_second_down,
    Pitch.semitones, semitone_shift; destruct s; simpl; lia.
Qed.

(** ** Streams *)

Lemma insert_by_offset_perm {A} (x : Offset * A) l :
  insert_by_offset x l ≡ₚ x :: l.
Proof.
  induction l as [|y l IH]; simpl; [done|].
  destruct (Qle_bool x.1 y.1); [done|].
  rewrite IH. apply Permutation_swap.
Qed.

Lemma sort_by_offset_perm {A} (l : list (Offset * A)) : sort_by_offset l ≡ₚ l.
Proof.
  induction l as [|x l IH]; simpl; [done|].
  rewrite insert_by_offset_perm. by rewrite IH.
Qed.

Lemma filter_bool_perm {A} (f : A → bool) (l1 l2 : list A) :
  l1 ≡ₚ l2 → List.filter f l1 ≡ₚ List.filter f l2.
Proof.
  induction 1 as [|x l1 l2 _ IH|x y l|l1 l2 l3 _ IH1 _ IH2]; simpl.
  - done.
  - destruct (f x); by rewrite IH.
  - destruct (f x), (f y); try done. apply Permutation_swap.
  - by rewrite IH1.
Qed.

Lemma offset_eqb_eq (a b : Offset) : offset_eqb a b = true ↔ a = b.
Proof.
  destruct a as [n d], b as [n' d']; unfold offset_eqb; simpl.
  rewrite andb_true_iff, Z.eqb_eq, Pos.eqb_eq.
  split; [intros [-> ->]; done | by inversion 1].
Qed.

Lemma holds_key_signature_spec ks e :
  holds_key_signature ks e = true ↔ key_signature_of e = Some ks.
Proof.
  destruct ks as [o s], e as [o' el].
  unfold holds_key_signature, key_signature_of; simpl.
  destruct el; try (split; discriminate).
  rewrite andb_true_iff, offset_eqb_eq, Z.eqb_eq.
  split; [intros [-> ->]; done | by inversion 1].
Qed.

Lemma key_signature_of_qualifies e ks :
  key_signature_of e = Some ks → qualifies e = ks_qualifies ks.
Proof.
  destruct e as [o el]; unfold key_signature_of, qualifies, ks_qualifies; simpl.
  destruct el; try discriminate. by intros [= <-].
Qed.

Lemma key_signature_of_None e : key_signature_of e = None → qualifies e = false.
Proof.
  destruct e as [o el]; unfold key_signature_of, qualifies; simpl.
  by destruct el.
Qed.

Lemma stream_remove_split ks es :
  ks ∈ omap key_signature_of es →
  ∃ es1 e es2, es = es1 ++ e :: es2 ∧ key_signature_of e = Some ks ∧
               stream_remove ks es = es1 ++ es2.
Proof.
  induction es as [|e es IH]; csimpl.
  - by intros ?%elem_of_nil.
  - intros Hin. destruct (holds_key_signature ks e) eqn:Hh.
    + apply holds_key_signature_spec in Hh. by exists [], e, es.
    + assert (ks ∈ omap key_signature_of es) as Hin'.
      { destruct (key_signature_of e) as [ks'|] eqn:Hk; [|done].
        apply elem_of_cons in Hin as [->|?]; [|done].
        apply holds_key_signature_spec in Hk. congruence. }
      destruct (IH Hin') as (es1 & e' & es2 & -> & Hk & Hr).
      exists (e :: es1), e', es2. by rewrite Hr.
Qed.

Lemma stream_remove_app ks es tl :
  ks ∈ omap key_signature_of es →
  stream_remove ks (es ++ tl) = stream_remove ks es ++ tl.
Proof.
  induction es as [|e es IH]; csimpl.
  - by intros ?%elem_of_nil.
  - intros Hin. destruct (holds_key_signature ks e) eqn:Hh; [done|].
    rewrite IH; [done|].
    destruct (key_signature_of e) as [ks'|] eqn:Hk; [|done].
    apply elem_of_cons in Hin as [->|?]; [|done].
    apply holds_key_signature_spec in Hk. congruence.
Qed.

Lemma omap_key_signature_app es1 es2 :
  omap key_signature_of (es1 ++ es2)
  = omap key_signature_of es1 ++ omap key_signature_of es2.
Proof. apply omap_app. Qed.

Lemma qualifying_length es :
  length (List.filter ks_qualifies (omap key_signature_of es))
  = length (List.filter qualifies es).
Proof.
  induction es as [|e es IH]; csimpl; [done|].
  destruct (key_signature_of e) as [ks|] eqn:Hk; csimpl.
  - rewrite (key_signature_of_qualifies _ _ Hk).
    destruct (ks_qualifies ks); simpl; by rewrite IH.
  - by rewrite (key_signature_of_None _ Hk).
Qed.

Lemma replace_key_signature_eq m st ks :
  replace_key_signature (m, st) ks
  = if ks_qualifies ks then
      (measure_insert 0 (EKeySignature replacement_key) (measure_remove ks m),
       mkPartState true (S (key_sigs_replaced st)) (measures_transposed st))
    else (m, st).
Proof. reflexivity. Qed.

(** The loop over [ks_list], whatever the order in which the key signatures
    of the measure come up: every qualifying one leaves the measure and one
    replacement is put in for each. *)
Lemma replace_loop_spec (l : list (Offset * Z)) :
  ∀ n es tl st,
    List.filter ks_qualifies l
      ≡ₚ List.filter ks_qualifies (omap key_signature_of es) →
    fold_left replace_key_signature l (mkMeasure n (es ++ tl), st)
    = (mkMeasure n
         (List.filter (λ e, negb (qualifies e)) es ++ tl
          ++ replicate (length (List.filter ks_qualifies l))
               (0%Q, EKeySignature replacement_key)),
       mkPartState
         (in_modulation st || negb (length (List.filter ks_qualifies l) =? 0)%nat)
         (key_sigs_replaced st + length (List.filter ks_qualifies l))
         (measures_transposed st)).
Proof.
  induction l as [|ks l IH]; intros n es tl st Hp.
  - simpl in *. apply Permutation_nil_l in Hp.
    assert (List.filter (λ e, negb (qualifies e)) es = es) as ->.
    { assert (length (List.filter qualifies es) = 0%nat) as Hz
        by (by rewrite <- qualifying_length, <- Hp).
      clear Hp. induction es as [|e es IHes]; simpl in *; [done|].
      destruct (qualifies e); simpl in *; [done|]. by rewrite IHes. }
    rewrite app_nil_r, orb_false_r, Nat.add_0_r. by destruct st.
  - cbn [fold_left List.filter] in *. rewrite replace_key_signature_eq.
    destruct (ks_qualifies ks) eqn:Hq.
    + assert (ks ∈ omap key_signature_of es) as Hin.
      { assert (ks ∈ List.filter ks_qualifies (omap key_signature_of es)) as Hin
          by (rewrite <- Hp; left).
        apply list_elem_of_In, filter_In in Hin as [Hin _].
        by apply list_elem_of_In. }
      destruct (stream_remove_split _ _ Hin) as (es1 & e & es2 & -> & Hk & Hr).
      assert (qualifies e = true) as He
        by (rewrite (key_signature_of_qualifies _ _ Hk); exact Hq).
      unfold measure_insert, measure_remove; cbn [number elements].
      rewrite stream_remove_app, Hr by done.
      rewrite <- app_assoc.
      rewrite (IH n (es1 ++ es2) (tl ++ [(0%Q, EKeySignature replacement_key)])).
      * cbn [in_modulation key_sigs_replaced measures_transposed length].
        rewrite !List.filter_app. cbn [List.filter]. rewrite He.
        cbn [negb]. f_equal; [f_equal|f_equal].
        -- by rewrite <- !app_assoc.
        -- by rewrite orb_true_r.
        -- lia.
      * rewrite !omap_key_signature_app, !List.filter_app in Hp |- *.
        csimpl in Hp. rewrite Hk in Hp. csimpl in Hp. cbn [List.filter] in Hp.
        rewrite Hq in Hp.
        by apply Permutation_cons_app_inv in Hp.
    + by apply IH.
Qed.

(** ** One measure *)

Lemma triggers_count m : triggers m = negb (qualifying_count m =? 0)%nat.
Proof.
  unfold triggers, qualifying_count.
  induction (elements m) as [|e es IH]; simpl; [done|].
  by destruct (qualifies e).
Qed.

Lemma filter_not_qualifies_id es :
  existsb qualifies es = false → List.filter (λ e, negb (qualifies e)) es = es.
Proof.
  induction es as [|e es IH]; simpl; [done|].
  destruct (qualifies e); simpl; [done|]. by intros ->%IH.
Qed.

Lemma replaced_measure_untriggered m : triggers m = false → replaced_measure m = m.
Proof.
  intros Ht. unfold replaced_measure, replaced_elements.
  rewrite filter_not_qualifies_id by done.
  rewrite triggers_count in Ht. apply negb_false_iff, Nat.eqb_eq in Ht.
  rewrite Ht. simpl. rewrite app_nil_r. by destruct m.
Qed.

Lemma process_measure_spec st m :
  process_measure st m
  = let flag := in_modulation st || triggers m in
    (if flag then transpose_measure (replaced_measure m) else m,
     mkPartState flag (key_sigs_replaced st + qualifying_count m)
       (if flag then S (measures_transposed st) else measures_transposed st)).
Proof.
  unfold process_measure.
  pose proof (replace_loop_spec (getKeySignatures m) (number m) (elements m) [] st)
    as Hl.
  rewrite app_nil_r in Hl. replace (mkMeasure (number m) (elements m)) with m in Hl
    by (by destruct m).
  assert (length (List.filter ks_qualifies (getKeySignatures m)) = qualifying_count m)
    as Hc.
  { unfold getKeySignatures, qualifying_count.
    rewrite <- qualifying_length.
    apply Permutation_length, filter_bool_perm, sort_by_offset_perm. }
  rewrite Hl by (apply filter_bool_perm, sort_by_offset_perm).
  rewrite Hc, <- triggers_count. cbn [in_modulation key_sigs_replaced
    measures_transposed app]. cbv zeta.
  destruct (in_modulation st || triggers m) eqn:Hf; [done|].
  apply orb_false_iff in Hf as [_ Ht].
  f_equal. exact (replaced_measure_untriggered m Ht).
Qed.

(** ** One part *)

Lemma transposed_from_true ms : transposed_from true ms = length ms.
Proof. by destruct ms. Qed.

Lemma process_measures_length st ms :
  length (process_measures st ms).1 = length ms.
Proof.
  revert st; induction ms as [|m ms IH]; intros st; simpl; [done|].
  destruct (process_measure st m) as [m' st'].
  specialize (IH st'). destruct (process_measures st' ms). simpl in *. by rewrite IH.
Qed.

Lemma process_measures_state st ms :
  (process_measures st ms).2
  = mkPartState (in_modulation st || existsb triggers ms)
      (key_sigs_replaced st + part_qualifying_count ms)
      (measures_transposed st + transposed_from (in_modulation st) ms).
Proof.
  revert st; induction ms as [|m ms IH]; intros st.
  - simpl. rewrite orb_false_r, !Nat.add_0_r. by destruct st.
  - cbn [process_measures]. rewrite process_measure_spec. cbv beta iota zeta.
    match goal with |- context [process_measures ?s ms] =>
      specialize (IH s); destruct (process_measures s ms) as [out st2] end.
    cbn [snd] in *. rewrite IH.
    cbn [in_modulation key_sigs_replaced measures_transposed existsb
         transposed_from].
    unfold part_qualifying_count. cbn [fmap list_fmap sum_list].
    f_equal.
    + by rewrite orb_assoc.
    + unfold id. lia.
    + destruct (in_modulation st || triggers m).
      * rewrite transposed_from_true. lia.
      * lia.
Qed.

Lemma process_measures_lookup st ms j m :
  ms !! j = Some m →
  (process_measures st ms).1 !! j
  = Some (if in_modulation st || existsb triggers (take (S j) ms)
          then transpose_measure (replaced_measure m) else m).
Proof.
  revert st j; induction ms as [|m0 ms IH]; intros st j Hj; [done|].
  cbn [process_measures]. rewrite process_measure_spec. cbv beta iota zeta.
  match goal with |- context [process_measures ?s ms] =>
    specialize (IH s); destruct (process_measures s ms) as [out st2] end.
  cbn [fst] in *. destruct j as [|j]; simpl in Hj.
  - injection Hj as ->. simpl. by rewrite orb_false_r.
  - simpl. rewrite (IH j Hj). cbn [in_modulation].
    by rewrite orb_assoc.
Qed.

Lemma first_trigger_cons m ms :
  first_trigger (m :: ms) = if triggers m then Some 0%nat else S <$> first_trigger ms.
Proof.
  unfold first_trigger; simpl.
  destruct (decide (triggers m = true)) as [->|Hn]; [done|].
  apply not_true_is_false in Hn. rewrite Hn.
  by destruct (list_find _ ms) as [[i x]|].
Qed.

Lemma existsb_triggers_take part t j :
  first_trigger part = Some t →
  existsb triggers (take (S j) part) = bool_decide (t ≤ j)%nat.
Proof.
  revert t j; induction part as [|m ms IH]; intros t j; [done|].
  rewrite first_trigger_cons. cbn [take existsb].
  destruct (triggers m) eqn:Hm.
  - intros [= <-]. symmetry. apply bool_decide_eq_true. lia.
  - destruct (first_trigger ms) as [t'|] eqn:Hf; [|done].
    intros [= <-]. simpl. destruct j as [|j].
    + done.
    + rewrite (IH t' j eq_refl). apply bool_decide_ext. lia.
Qed.

Lemma existsb_triggers_None part :
  first_trigger part = None → existsb triggers part = false.
Proof.
  induction part as [|m ms IH]; [done|].
  rewrite first_trigger_cons. simpl. destruct (triggers m); [done|].
  destruct (first_trigger ms); [done|]. intros _. by apply IH.
Qed.

Lemma transposed_from_first_trigger part :
  transposed_from false part
  = match first_trigger part with
    | Some t => (length part - t)%nat
    | None => 0%nat
    end.
Proof.
  induction part as [|m ms IH]; [done|].
  rewrite first_trigger_cons. simpl. destruct (triggers m); [done|].
  rewrite IH. by destruct (first_trigger ms).
Qed.

(** ** Pitches of a measure *)

Lemma general_pitches_transpose g :
  general_pitches (transpose_general g) = transpose_pitch <$> general_pitches g.
Proof. by destruct g. Qed.

Lemma element_pitches_transpose e :
  element_pitches (transpose_element e) = transpose_pitch <$> element_pitches e.
Proof.
  destruct e as [g|s|v|c]; simpl; try done.
  - apply general_pitches_transpose.
  - induction v as [|[o g] v IH]; csimpl; [done|].
    by rewrite fmap_app, general_pitches_transpose, IH.
Qed.

Lemma measure_pitches_transpose m :
  measure_pitches (transpose_measure m) = transpose_pitch <$> measure_pitches m.
Proof.
  unfold measure_pitches, transpose_measure; simpl.
  induction (elements m) as [|[o e] es IH]; csimpl; [done|].
  by rewrite fmap_app, element_pitches_transpose, IH.
Qed.

Lemma qualifies_no_pitches e : qualifies e = true → element_pitches e.2 = [].
Proof. destruct e as [o []]; simpl; unfold qualifies; simpl; done. Qed.

Lemma measure_pitches_replaced m :
  measure_pitches (replaced_measure m) = measure_pitches m.
Proof.
  unfold measure_pitches, replaced_measure, replaced_elements; simpl.
  rewrite bind_app.
  assert (replicate (qualifying_count m) (0%Q, EKeySignature replacement_key)
            ≫= (λ oe, element_pitches oe.2) = []) as ->
    by (induction (qualifying_count m); csimpl; done).
  rewrite app_nil_r.
  induction (elements m) as [|e es IH]; csimpl; [done|].
  destruct (qualifies e) eqn:Hq; csimpl.
  - by rewrite (qualifies_no_pitches _ Hq), IH.
  - by rewrite IH.
Qed.

(** ** Key signatures of a measure *)

Lemma key_signatures_transpose m :
  key_signatures (transpose_measure m) = key_signatures m.
Proof.
  unfold key_signatures, transpose_measure; simpl.
  induction (elements m) as [|[o e] es IH]; csimpl; [done|].
  rewrite IH. by destruct e.
Qed.

Lemma key_signatures_replaced m :
  key_signatures (replaced_measure m)
  = List.filter (λ ks, negb (ks_qualifies ks)) (key_signatures m)
    ++ replicate (qualifying_count m) (0%Q, replacement_key).
Proof.
  unfold key_signatures, replaced_measure, replaced_elements; simpl.
  rewrite omap_app. f_equal.
  - induction (elements m) as [|e es IH]; csimpl; [done|].
    destruct (key_signature_of e) as [ks|] eqn:Hk; csimpl.
    + rewrite (key_signature_of_qualifies _ _ Hk).
      destruct (ks_qualifies ks); csimpl; [done|]. by rewrite Hk, IH.
    + rewrite (key_signature_of_None _ Hk). csimpl. by rewrite Hk.
  - induction (qualifying_count m); csimpl; [done|]. by f_equal.
Qed.

Lemma triggers_transpose m : triggers (transpose_measure m) = triggers m.
Proof.
  unfold triggers, transpose_measure; simpl.
  induction (elements m) as [|[o e] es IH]; csimpl; [done|].
  rewrite IH. by destruct e.
Qed.

Lemma triggers_replaced m : triggers (replaced_measure m) = false.
Proof.
  unfold triggers, replaced_measure, replaced_elements; simpl.
  rewrite existsb_app. apply orb_false_iff; split.
  - induction (elements m) as [|e es IH]; simpl; [done|].
    destruct (qualifies e) eqn:Hq; simpl; [done|]. by rewrite Hq.
  - induction (qualifying_count m); simpl; done.
Qed.

(** ** The whole score *)

Lemma remove_key_change_lookup score p part :
  score !! p = Some part →
  (remove_key_change score).1 !! p = Some (process_measures initial_state part).1
  ∧ (remove_key_change score).2 !! p
    = Some (part_qualifying_count part, transposed_from false part).
Proof.
  intros Hp. unfold remove_key_change; cbn [fst snd].
  rewrite !list_lookup_fmap, Hp. cbn [fmap option_fmap option_map].
  unfold process_part.
  pose proof (process_measures_state initial_state part) as Hs.
  destruct (process_measures initial_state part) as [out st]. simpl in *.
  by rewrite Hs.
Qed.

Lemma existsb_triggers_false (ms : list Measure) :
  existsb triggers ms = false ↔ ∀ k mk, ms !! k = Some mk → triggers mk = false.
Proof.
  induction ms as [|m ms IH]; simpl.
  - split; [intros _ k mk; by rewrite lookup_nil | done].
  - rewrite orb_false_iff, IH. split.
    + intros [Hm Hms] [|k] mk; simpl; [by intros [= <-] | apply Hms].
    + intros H. split; [exact (H 0%nat m eq_refl) | intros k mk; apply (H (S k))].
Qed.

Lemma process_measures_untriggered part :
  existsb triggers part = false → (process_measures initial_state part).1 = part.
Proof.
  intros Hn. apply list_eq. intros j.
  destruct (part !! j) as [m|] eqn:Hj.
  - rewrite (process_measures_lookup _ _ _ _ Hj). simpl.
    assert (existsb triggers (take (S j) part) = false) as ->; [|done].
    apply existsb_triggers_false. intros k mk Hk.
    apply lookup_take_Some in Hk as [Hk _].
    revert k mk Hk. by apply existsb_triggers_false.
  - apply lookup_ge_None. rewrite process_measures_length.
    by apply lookup_ge_None.
Qed.

Lemma part_qualifying_count_untriggered part :
  existsb triggers part = false → part_qualifying_count part = 0%nat.
Proof.
  unfold part_qualifying_count.
  induction part as [|m ms IH]; [done|]. cbn [existsb]. csimpl.
  intros [Hm Hms]%orb_false_iff. rewrite (IH Hms).
  rewrite triggers_count in Hm. apply negb_false_iff, Nat.eqb_eq in Hm.
  by rewrite Hm.
Qed.

Lemma transposed_from_untriggered part :
  existsb triggers part = false → transposed_from false part = 0%nat.
Proof.
  induction part as [|m ms IH]; [done|]. simpl.
  intros [-> Hms]%orb_false_iff. by apply IH.
Qed.

(** C1.  In every part, once a measure triggers modulation (it is the first
    measure holding a key signature of at least [threshold_sharps] sharps),
    that measure and every later measure of the part have each pitch, those
    of notes and those inside chords, moved by exactly [semitone_shift]
    semitones, and every measure before the trigger is left as it was. *)
Theorem remove_key_change_shifts_from_trigger
    (score : list (list Measure)) (p t j : nat) (part : list Measure)
    (m : Measure) :
  score !! p = Some part →
  first_trigger part = Some t →
  part !! j = Some m →
  ∃ part' m',
    (remove_key_change score).1 !! p = Some part' ∧
    part' !! j = Some m' ∧
    ((t ≤ j)%nat →
       Pitch.semitones <$> measure_pitches m'
       = (λ x, x + semitone_shift) <$> (Pitch.semitones <$> measure_pitches m)) ∧
    ((j < t)%nat → m' = m).
Proof.
  intros Hp Ht Hj.
  destruct (remove_key_change_lookup _ _ _ Hp) as [Hout _].
  eexists _, _. split; [exact Hout|].
  split; [exact (process_measures_lookup _ _ _ _ Hj)|].
  rewrite (existsb_triggers_take _ _ j Ht). simpl. split; intros Hle.
  - rewrite bool_decide_eq_true_2 by done.
    rewrite measure_pitches_transpose, measure_pitches_replaced.
    rewrite <- !list_fmap_compose. apply list_fmap_ext.
    intros i x _. simpl. apply semitones_transpose_pitch.
  - rewrite bool_decide_eq_false_2 by lia. done.
Qed.

Lemma remove_key_change_shifts_from_trigger_witness :
  let m3 := mkMeasure 3 [(0%Q, plain_note d4);
                         (1%Q, EGeneral (GChord (mkChord [c4; d4] None)))] in
  [three_measures; quiet_part] !! 0%nat = Some three_measures ∧
  first_trigger three_measures = Some 1%nat ∧
  three_measures !! 2%nat = Some m3 ∧
  ∃ part' m',
    (remove_key_change [three_measures; quiet_part]).1 !! 0%nat = Some part' ∧
    part' !! 2%nat = Some m' ∧
    ((1 ≤ 2)%nat →
       Pitch.semitones <$> measure_pitches m'
       = (λ x, x + semitone_shift) <$> (Pitch.semitones <$> measure_pitches m3)) ∧
    ((2 < 1)%nat → m' = m3).
Proof.
  intros m3. split; [reflexivity|]. split; [reflexivity|]. split; [reflexivity|].
  apply (remove_key_change_shifts_from_trigger
           [three_measures; quiet_part] 0 1 2 three_measures m3);
    reflexivity.
Defined.

(** C2, as the code has it.  Every key signature of at least
    [threshold_sharps] sharps leaves its measure, and for each of them one
    [replacement_key] is put into the same measure at offset 0, whatever the
    number of sharps was; the key signatures below the threshold stay as
    they are, offsets included. *)
Theorem replacement_key_at_offset_zero
    (score : list (list Measure)) (p j : nat) (part : list Measure)
    (m : Measure) :
  score !! p = Some part →
  part !! j = Some m →
  ∃ part' m',
    (remove_key_change score).1 !! p = Some part' ∧
    part' !! j = Some m' ∧
    number m' = number m ∧
    key_signatures m'
    = List.filter (λ ks, negb (ks_qualifies ks)) (key_signatures m)
      ++ replicate (qualifying_count m) (0%Q, replacement_key).
Proof.
  intros Hp Hj.
  destruct (remove_key_change_lookup _ _ _ Hp) as [Hout _].
  eexists _, _. split; [exact Hout|].
  split; [exact (process_measures_lookup _ _ _ _ Hj)|].
  destruct (initial_state.(in_modulation) || existsb triggers (take (S j) part))
    eqn:Hf.
  - split; [done|]. by rewrite key_signatures_transpose, key_signatures_replaced.
  - split; [done|].
    assert (triggers m = false) as Hm.
    { apply orb_false_iff in Hf as [_ Hf].
      apply (proj1 (existsb_triggers_false _) Hf j).
      apply lookup_take_Some. split; [done|lia]. }
    rewrite <- (replaced_measure_untriggered m Hm) at 1.
    apply key_signatures_replaced.
Qed.

Lemma replacement_key_at_offset_zero_witness :
  [[mid_measure_change]] !! 0%nat = Some [mid_measure_change] ∧
  [mid_measure_change] !! 0%nat = Some mid_measure_change ∧
  ∃ part' m',
    (remove_key_change [[mid_measure_change]]).1 !! 0%nat = Some part' ∧
    part' !! 0%nat = Some m' ∧
    number m' = number mid_measure_change ∧
    key_signatures m'
    = List.filter (λ ks, negb (ks_qualifies ks)) (key_signatures mid_measure_change)
      ++ replicate (qualifying_count mid_measure_change) (0%Q, replacement_key).
Proof.
  split; [reflexivity|]. split; [reflexivity|].
  apply (replacement_key_at_offset_zero
           [[mid_measure_change]] 0 0 [mid_measure_change] mid_measure_change);
    reflexivity.
Defined.

(** C2, as it is worded, fails: six sharps announced at offset 2 of a
    measure are answered by four flats at offset 0, not at offset 2. *)
Lemma mid_measure_change_not_in_place : ¬ replaces_in_place [[mid_measure_change]].
Proof.
  intros H.
  destruct (H 0%nat [mid_measure_change] 0%nat mid_measure_change eq_refl eq_refl)
    as (part' & m' & H1 & H2 & H3).
  vm_compute in H1. injection H1 as <-.
  vm_compute in H2. injection H2 as <-.
  vm_compute in H3. discriminate H3.
Qed.

(** C3.  The modulation flag belongs to one part and starts out false: a
    measure with no qualifying key signature in it or in any earlier
    measure of its part is left as it was, and a part with no qualifying
    key signature at all is left whole, whatever the other parts of the
    score hold. *)
Theorem untriggered_measures_unchanged
    (score : list (list Measure)) (p : nat) (part : list Measure) :
  score !! p = Some part →
  (∀ j m,
     part !! j = Some m →
     (∀ k mk, (k ≤ j)%nat → part !! k = Some mk → triggers mk = false) →
     ∃ part', (remove_key_change score).1 !! p = Some part' ∧
              part' !! j = Some m)
  ∧ ((∀ k mk, part !! k = Some mk → triggers mk = false) →
     (remove_key_change score).1 !! p = Some part).
Proof.
  intros Hp. destruct (remove_key_change_lookup _ _ _ Hp) as [Hout _]. split.
  - intros j m Hj Hbefore. eexists. split; [exact Hout|].
    rewrite (process_measures_lookup _ _ _ _ Hj). simpl.
    assert (existsb triggers (take (S j) part) = false) as ->; [|done].
    apply existsb_triggers_false. intros k mk Hk.
    apply lookup_take_Some in Hk as [Hk Hlt].
    apply (Hbefore k mk); [lia|done].
  - intros Hnone. rewrite Hout. f_equal.
    by apply process_measures_untriggered, existsb_triggers_false.
Qed.

Lemma untriggered_measures_unchanged_witness :
  let m1 := mkMeasure 1 [(0%Q, EKeySignature 1); (0%Q, plain_note c4)] in
  [three_measures; quiet_part] !! 1%nat = Some quiet_part ∧
  (remove_key_change [three_measures; quiet_part]).1 !! 1%nat = Some quiet_part ∧
  ∃ part', (remove_key_change [three_measures; quiet_part]).1 !! 0%nat = Some part' ∧
           part' !! 0%nat = Some m1.
Proof.
  intros m1. split; [reflexivity|]. split.
  - apply (proj2 (untriggered_measures_unchanged
                    [three_measures; quiet_part] 1 quiet_part eq_refl)).
    intros [|[|k]] mk; simpl; [by intros [= <-] | done | done].
  - apply (proj1 (untriggered_measures_unchanged
                    [three_measures; quiet_part] 0 three_measures eq_refl)
             0%nat m1 eq_refl).
    intros [|k] mk Hk; [by intros [= <-] | lia].
Defined.

(** C4.  Running [remove_key_change] again on the score it has produced
    changes nothing: the replacement key lies below the threshold, so the
    second run meets no qualifying key signature, counts no replacement and
    no transposed measure, and leaves the score as the first run left it. *)
Theorem remove_key_change_rerun (score : list (list Measure)) :
  let once := (remove_key_change score).1 in
  replacement_key < threshold_sharps ∧
  (∀ p part k mk, once !! p = Some part → part !! k = Some mk → triggers mk = false) ∧
  remove_key_change once = (once, replicate (length once) (0%nat, 0%nat)).
Proof.
  intros once.
  assert (∀ p part, once !! p = Some part → existsb triggers part = false) as Hq.
  { intros p part' Hp'. subst once. unfold remove_key_change in Hp'; cbn [fst] in Hp'.
    rewrite !list_lookup_fmap in Hp'.
    destruct (score !! p) as [part|] eqn:Hp; [|done]. simpl in Hp'.
    injection Hp' as <-. unfold process_part.
    pose proof (process_measures_lookup initial_state part) as Hl.
    pose proof (process_measures_length initial_state part) as Hn.
    destruct (process_measures initial_state part) as [out st]. simpl in *.
    apply existsb_triggers_false. intros k mk Hk.
    destruct (part !! k) as [m|] eqn:Hm.
    - rewrite (Hl k m Hm) in Hk. injection Hk as <-.
      destruct (existsb triggers (take (S k) part)) eqn:Hf.
      + by rewrite triggers_transpose, triggers_replaced.
      + apply (proj1 (existsb_triggers_false _) Hf k).
        apply lookup_take_Some. split; [done|lia].
    - apply lookup_ge_None in Hm. apply lookup_lt_Some in Hk. lia. }
  split; [done|]. split.
  - intros p part k mk Hp Hk.
    by apply (proj1 (existsb_triggers_false part) (Hq p part Hp) k).
  - unfold remove_key_change at 1. f_equal.
    + apply list_eq. intros p. rewrite !list_lookup_fmap.
      destruct (once !! p) as [part|] eqn:Hp; [|done]. simpl. f_equal.
      unfold process_part.
      pose proof (process_measures_untriggered part (Hq p part Hp)) as Hu.
      by destruct (process_measures initial_state part).
    + apply list_eq. intros p. rewrite !list_lookup_fmap.
      destruct (once !! p) as [part|] eqn:Hp; simpl.
      * rewrite lookup_replicate_2 by (by apply lookup_lt_Some in Hp).
        f_equal. unfold process_part.
        pose proof (process_measures_state initial_state part) as Hs.
        destruct (process_measures initial_state part) as [out st].
        simpl in Hs. subst st. simpl.
        pose proof (Hq p part Hp) as Hn. f_equal.
        -- by apply part_qualifying_count_untriggered.
        -- by apply transposed_from_untriggered.
      * symmetry. apply lookup_replicate_None. by apply lookup_ge_None in Hp.
Qed.

(** C6.  For every part the two counts printed are these: the key
    signatures replaced are as many as the part has key signatures of at
    least [threshold_sharps] sharps, and the measures transposed are those
    from the first triggering measure to the end of the part. *)
Theorem remove_key_change_counts
    (score : list (list Measure)) (p : nat) (part : list Measure) :
  score !! p = Some part →
  (remove_key_change score).2 !! p
  = Some (part_qualifying_count part,
          match first_trigger part with
          | Some t => (length part - t)%nat
          | None => 0%nat
          end).
Proof.
  intros Hp. destruct (remove_key_change_lookup _ _ _ Hp) as [_ Hc].
  by rewrite Hc, transposed_from_first_trigger.
Qed.

Lemma remove_key_change_counts_witness :
  [three_measures; quiet_part] !! 0%nat = Some three_measures ∧
  (remove_key_change [three_measures; quiet_part]).2 !! 0%nat = Some (1%nat, 2%nat).
Proof.
  split; [reflexivity|].
  exact (remove_key_change_counts [three_measures; quiet_part] 0 three_measures
           eq_refl).
Defined.

(** C7.  Nothing fails on an empty scope: a score without parts comes back
    without parts and without counts, and a part without measures comes
    back without measures, with no key signature replaced and no measure
    transposed. *)
Theorem remove_key_change_empty_scopes :
  remove_key_change [] = ([], [])
  ∧ ∀ (score : list (list Measure)) (p : nat),
      score !! p = Some [] →
      (remove_key_change score).1 !! p = Some []
      ∧ (remove_key_change score).2 !! p = Some (0%nat, 0%nat).
Proof.
  split; [reflexivity|]. intros score p Hp.
  by destruct (remove_key_change_lookup _ _ _ Hp) as [-> ->].
Qed.

Lemma remove_key_change_empty_scopes_witness :
  [three_measures; []] !! 1%nat = Some [] ∧
  (remove_key_change [three_measures; []]).1 !! 1%nat = Some [] ∧
  (remove_key_change [three_measures; []]).2 !! 1%nat = Some (0%nat, 0%nat).
Proof.
  split; [reflexivity|].
  exact (proj2 remove_key_change_empty_scopes [three_measures; []] 1%nat eq_refl).
Defined.

(** ** References to the notes of a part *)

Lemma NoDup_imap_tagged {A B} (f : nat → A → B) (tag : B → nat) (l : list A) :
  (∀ i x, tag (f i x) = i) → NoDup (imap f l).
Proof.
  revert f tag; induction l as [|a l IH]; intros f tag Htag; simpl.
  - constructor.
  - constructor.
    + intros (i & y & Heq & _)%elem_of_lookup_imap.
      apply (f_equal tag) in Heq. simpl in Heq. rewrite !Htag in Heq. done.
    + apply (IH _ (λ b, pred (tag b))). intros i x. simpl. by rewrite Htag.
Qed.

Lemma NoDup_join_imap_tagged {A B K} (key : B → K) (tag : K → nat)
    (f : nat → A → list B) (l : list A) :
  (∀ i x y, y ∈ f i x → tag (key y) = i) →
  (∀ i x, NoDup (key <$> f i x)) →
  NoDup (key <$> mjoin (imap f l)).
Proof.
  revert f tag; induction l as [|a l IH]; intros f tag Htag Hnd; simpl.
  - constructor.
  - rewrite fmap_app. apply NoDup_app. split; [apply Hnd|]. split.
    + intros k (y & -> & Hy)%list_elem_of_fmap (y' & Hk & Hy')%list_elem_of_fmap.
      apply list_elem_of_join in Hy' as (ys & Hy' & Hys).
      apply elem_of_lookup_imap in Hys as (i & x & -> & _).
      apply Htag in Hy, Hy'. rewrite Hk in Hy. simpl in *. lia.
    + apply (IH _ (λ k, pred (tag k))).
      * intros i x y Hy. simpl. by rewrite (Htag _ _ _ Hy).
      * intros i x. apply Hnd.
Qed.

Lemma elem_of_element_flat mi ei e y :
  y ∈ element_flat mi ei e →
  ref_measure (entry_ref y) = mi ∧ ref_element (entry_ref y) = ei.
Proof.
  unfold element_flat. destruct e as [o [g|s|v|c]]; simpl.
  - by intros ->%list_elem_of_singleton.
  - by intros ?%elem_of_nil.
  - by intros (vi & og & -> & _)%elem_of_lookup_imap.
  - by intros ?%elem_of_nil.
Qed.

Lemma NoDup_element_flat mi ei e : NoDup (entry_ref <$> element_flat mi ei e).
Proof.
  unfold element_flat. destruct e as [o [g|s|v|c]]; simpl;
    try apply NoDup_nil_2; try apply NoDup_singleton.
  rewrite fmap_imap.
  apply (NoDup_imap_tagged _ (λ r, default 0%nat (ref_voice r))). done.
Qed.

Lemma elem_of_measure_flat mi m y :
  y ∈ measure_flat mi m ↔
  ∃ ei e, elements m !! ei = Some e ∧ y ∈ element_flat mi ei e.
Proof.
  unfold measure_flat. rewrite list_elem_of_join. split.
  - intros (ys & Hy & (ei & e & -> & He)%elem_of_lookup_imap). eauto.
  - intros (ei & e & He & Hy). eexists. split; [exact Hy|].
    apply elem_of_lookup_imap. eauto.
Qed.

Lemma NoDup_measure_flat mi m : NoDup (entry_ref <$> measure_flat mi m).
Proof.
  unfold measure_flat.
  apply (NoDup_join_imap_tagged entry_ref ref_element).
  - intros ei e y Hy. by apply elem_of_element_flat in Hy as [_ ?].
  - intros ei e. apply NoDup_element_flat.
Qed.

Lemma filter_bool_sublist {A} (f : A → bool) (l : list A) :
  List.filter f l `sublist_of` l.
Proof.
  induction l as [|x l IH]; simpl; [done|].
  destruct (f x); [by apply sublist_skip | by apply sublist_cons].
Qed.

Lemma elem_of_measure_notes mi m y :
  y ∈ sort_by_offset (List.filter is_not_rest (measure_flat mi m)) ↔
  y ∈ measure_flat mi m ∧ is_not_rest y = true.
Proof.
  rewrite sort_by_offset_perm, !list_elem_of_In. apply filter_In.
Qed.

Lemma NoDup_measure_notes mi m :
  NoDup (entry_ref <$> sort_by_offset (List.filter is_not_rest (measure_flat mi m))).
Proof.
  rewrite sort_by_offset_perm.
  eapply sublist_NoDup; [apply NoDup_measure_flat|].
  apply fmap_sublist, filter_bool_sublist.
Qed.

Lemma elem_of_part_flatten_notes part y :
  y ∈ part_flatten_notes part ↔
  ∃ mi m ei e, part !! mi = Some m ∧ elements m !! ei = Some e ∧
               y ∈ element_flat mi ei e ∧ is_not_rest y = true.
Proof.
  unfold part_flatten_notes. rewrite list_elem_of_join. split.
  - intros (ys & Hy & (mi & m & -> & Hm)%elem_of_lookup_imap).
    apply elem_of_measure_notes in Hy as [Hy Hr].
    apply elem_of_measure_flat in Hy as (ei & e & He & Hy).
    by exists mi, m, ei, e.
  - intros (mi & m & ei & e & Hm & He & Hy & Hr).
    exists (sort_by_offset (List.filter is_not_rest (measure_flat mi m))). split.
    + apply elem_of_measure_notes. split; [|done].
      apply elem_of_measure_flat. eauto.
    + apply elem_of_lookup_imap. eauto.
Qed.

Lemma NoDup_part_flatten_notes part :
  NoDup (entry_ref <$> part_flatten_notes part).
Proof.
  unfold part_flatten_notes.
  apply (NoDup_join_imap_tagged entry_ref ref_measure).
  - intros mi m y [Hy _]%elem_of_measure_notes.
    apply elem_of_measure_flat in Hy as (ei & e & _ & Hy).
    by apply elem_of_element_flat in Hy as [? _].
  - intros mi m. apply NoDup_measure_notes.
Qed.

Lemma NoDup_notes_list part : NoDup (notes_list part).
Proof.
  unfold notes_list.
  apply (sublist_NoDup _ (entry_ref <$> part_flatten_notes part));
    [apply NoDup_part_flatten_notes|].
  induction (part_flatten_notes part) as [|y l IH]; csimpl; [constructor|].
  unfold note_ref_of at 1, entry_ref at 1.
  destruct (y.2.2); simpl; [by apply sublist_skip | by apply sublist_cons ..].
Qed.

(** A reference found by flattening names the object it was found at. *)
Lemma lookup_flattened part y :
  y ∈ part_flatten_notes part → lookup_general part (entry_ref y) = Some y.2.2.
Proof.
  intros (mi & m & ei & e & Hm & He & Hy & _)%elem_of_part_flatten_notes.
  unfold element_flat in Hy. unfold lookup_general.
  destruct e as [o [g|s|v|c]]; simpl in Hy.
  - apply list_elem_of_singleton in Hy as ->. simpl. rewrite Hm. simpl.
    by rewrite He.
  - by apply elem_of_nil in Hy.
  - apply elem_of_lookup_imap in Hy as (vi & og & -> & Hv). simpl.
    rewrite Hm. simpl. rewrite He. simpl. by rewrite Hv.
  - by apply elem_of_nil in Hy.
Qed.

Lemma lookup_notes_list part r :
  r ∈ notes_list part → ∃ n, lookup_note part r = Some n.
Proof.
  unfold notes_list. intros (y & Hy & Hr)%list_elem_of_omap.
  unfold note_ref_of in Hr. unfold lookup_note.
  destruct (y.2.2) as [n| |] eqn:Hg; try done. injection Hr as <-.
  change (y.2.1) with (entry_ref y).
  rewrite (lookup_flattened part y Hy), Hg. eauto.
Qed.

(** Every note of the part is collected. *)
Lemma notes_list_complete part r n :
  lookup_note part r = Some n → r ∈ notes_list part.
Proof.
  unfold lookup_note, lookup_general. destruct r as [mi ei vo]; simpl.
  destruct (part !! mi) as [m|] eqn:Hm; simpl; [|done].
  destruct (elements m !! ei) as [[o e]|] eqn:He; simpl; [|done].
  intros Hl. unfold notes_list. apply list_elem_of_omap.
  destruct e as [g|s|v|c], vo as [vi|]; simpl in Hl; try done.
  - destruct g as [n'| |]; try done.
    exists (o, (mkRef mi ei None, GNote n')). split; [|done].
    apply elem_of_part_flatten_notes. exists mi, m, ei, (o, EGeneral (GNote n')).
    repeat split; try done. unfold element_flat; simpl. apply list_elem_of_singleton.
    done.
  - destruct (v !! vi) as [[ov g]|] eqn:Hv; simpl in Hl; [|done].
    destruct g as [n'| |]; try done.
    exists ((o + ov)%Q, (mkRef mi ei (Some vi), GNote n')). split; [|done].
    apply elem_of_part_flatten_notes. exists mi, m, ei, (o, EVoice v).
    repeat split; try done. unfold element_flat; simpl.
    apply elem_of_lookup_imap. by exists vi, (ov, GNote n').
Qed.

(** ** Writing a lyric through a reference *)

Lemma lookup_set_lyric_same r s part :
  lookup_general (set_lyric r s part) r
  = set_general_lyric s <$> lookup_general part r.
Proof.
  unfold lookup_general, set_lyric. destruct r as [mi ei vo]; simpl.
  rewrite list_lookup_alter_eq.
  destruct (part !! mi) as [m|]; simpl; [|done].
  rewrite list_lookup_alter_eq.
  destruct (elements m !! ei) as [[o e]|]; simpl; [|done].
  destruct e as [g|k|v|c], vo as [vi|]; simpl; try done.
  rewrite list_lookup_alter_eq. by destruct (v !! vi) as [[ov g]|].
Qed.

Lemma lookup_set_lyric_other r r' s part :
  r ≠ r' → lookup_general (set_lyric r s part) r' = lookup_general part r'.
Proof.
  unfold lookup_general, set_lyric.
  destruct r as [mi ei vo], r' as [mi' ei' vo']; simpl. intros Hne.
  destruct (decide (mi = mi')) as [<-|Hm];
    [|by rewrite list_lookup_alter_ne].
  rewrite list_lookup_alter_eq.
  destruct (part !! mi) as [m|]; simpl; [|done].
  destruct (decide (ei = ei')) as [<-|He];
    [|by rewrite list_lookup_alter_ne].
  rewrite list_lookup_alter_eq.
  destruct (elements m !! ei) as [[o e]|]; simpl; [|done].
  destruct e as [g|k|v|c], vo as [vi|], vo' as [vi'|]; simpl; try done.
  rewrite list_lookup_alter_ne; [done|]. congruence.
Qed.

Lemma strip_set_general s g : strip_general (set_general_lyric s g) = strip_general g.
Proof. by destruct g. Qed.

Lemma strip_set_element vo s e :
  strip_element (set_element_lyric vo s e) = strip_element e.
Proof.
  destruct e as [g|k|v|c], vo as [vi|]; simpl; try done.
  - by rewrite strip_set_general.
  - f_equal. apply list_eq. intros i. rewrite !list_lookup_fmap.
    destruct (decide (vi = i)) as [->|Hne].
    + rewrite list_lookup_alter_eq. destruct (v !! i) as [[ov g]|]; simpl; [|done].
      by rewrite strip_set_general.
    + by rewrite list_lookup_alter_ne.
Qed.

Lemma fmap_alter_absorb {A B} (h : A → B) (f : A → A) (i : nat) (l : list A) :
  (∀ x, h (f x) = h x) → h <$> alter f i l = h <$> l.
Proof.
  intros Hh. apply list_eq. intros j. rewrite !list_lookup_fmap.
  destruct (decide (i = j)) as [->|Hne].
  - rewrite list_lookup_alter_eq. destruct (l !! j); simpl; [|done]. by rewrite Hh.
  - by rewrite list_lookup_alter_ne.
Qed.

Lemma strip_set_lyric r s part :
  strip_lyrics (set_lyric r s part) = strip_lyrics part.
Proof.
  unfold strip_lyrics, set_lyric. apply fmap_alter_absorb. intros m. simpl.
  f_equal. apply fmap_alter_absorb. intros [o e]. simpl.
  by rewrite strip_set_element.
Qed.

Lemma chords_strip_element e : element_chords (strip_element e) = element_chords e.
Proof.
  destruct e as [g|k|v|c]; simpl; try done.
  - by destruct g.
  - induction v as [|[ov g] v IH]; csimpl; [done|]. rewrite IH. by destruct g.
Qed.

Lemma part_chords_strip part : part_chords (strip_lyrics part) = part_chords part.
Proof.
  unfold part_chords, strip_lyrics.
  induction part as [|m ms IH]; csimpl; [done|]. rewrite IH. f_equal.
  induction (elements m) as [|[o e] es IHes]; csimpl; [done|].
  by rewrite IHes, chords_strip_element.
Qed.

(** ** The loop over the syllables *)

Lemma assign_lyric_in_range notes part i s r :
  notes !! i = Some r → assign_lyric notes part (i, s) = set_lyric r s part.
Proof.
  intros Hr. unfold assign_lyric; simpl.
  rewrite bool_decide_eq_true_2 by (by apply lookup_lt_Some in Hr).
  by rewrite Hr.
Qed.

Lemma assign_lyric_out_of_range (notes : list NoteRef) part i s :
  notes !! i = None → assign_lyric notes part (i, s) = part.
Proof.
  intros Hr. unfold assign_lyric; simpl. rewrite Hr. by case_bool_decide.
Qed.

Lemma assign_lyrics_spec (notes : list NoteRef) (part : list Measure) :
  NoDup notes →
  ∀ syllables : list string,
    let part' := fold_left (assign_lyric notes) (imap pair syllables) part in
    strip_lyrics part' = strip_lyrics part
    ∧ (∀ i r s, notes !! i = Some r → syllables !! i = Some s →
         lookup_general part' r = set_general_lyric s <$> lookup_general part r)
    ∧ (∀ r, (∀ i, (i < length syllables)%nat → notes !! i ≠ Some r) →
         lookup_general part' r = lookup_general part r).
Proof.
  intros Hnd syllables.
  induction syllables as [|x l IH] using rev_ind.
  - simpl. split; [done|]. split; [|done]. intros i r s _. by rewrite lookup_nil.
  - cbv zeta in *. rewrite imap_app, fold_left_app. simpl.
    rewrite Nat.add_0_r.
    destruct IH as (IHs & IHa & IHb).
    set (part' := fold_left (assign_lyric notes) (imap pair l) part) in *.
    destruct (notes !! length l) as [r0|] eqn:Hr0.
    + rewrite (assign_lyric_in_range _ _ _ _ _ Hr0).
      split; [by rewrite strip_set_lyric|]. split.
      * intros i r s Hr Hs.
        destruct (decide (i = length l)) as [->|Hi].
        -- rewrite list_lookup_middle in Hs by done. injection Hs as <-.
           assert (r = r0) as -> by congruence.
           rewrite lookup_set_lyric_same, IHb; [done|].
           intros i Hi Hri.
           pose proof (NoDup_lookup _ _ _ _ Hnd Hri Hr0). lia.
        -- assert (i < length l)%nat as Hlt.
           { apply lookup_lt_Some in Hs. rewrite length_app in Hs. simpl in Hs. lia. }
           rewrite lookup_app_l in Hs by done.
           rewrite lookup_set_lyric_other; [by apply (IHa i)|].
           intros <-. by pose proof (NoDup_lookup _ _ _ _ Hnd Hr Hr0).
      * intros r Hr. rewrite length_app in Hr. simpl in Hr.
        rewrite lookup_set_lyric_other.
        -- apply IHb. intros i Hi. apply Hr. lia.
        -- intros <-. apply (Hr (length l)); [lia|done].
    + rewrite (assign_lyric_out_of_range _ _ _ _ Hr0).
      split; [done|]. split.
      * intros i r s Hr Hs.
        destruct (decide (i = length l)) as [->|Hi]; [congruence|].
        assert (i < length l)%nat as Hlt.
        { apply lookup_lt_Some in Hs. rewrite length_app in Hs. simpl in Hs. lia. }
        rewrite lookup_app_l in Hs by done. by apply (IHa i).
      * intros r Hr. rewrite length_app in Hr. simpl in Hr.
        apply IHb. intros i Hi. apply Hr. lia.
Qed.

(** C5, as the code has it.  [add_lyrics] touches the first part only.  It
    collects every note of that part, and no chord, in the order of the
    flattened part; the i-th note gets [syllables[i]] as long as there is
    one, the notes beyond the last syllable are not touched (a note that
    had a lyric keeps it), the syllables beyond the last note go nowhere,
    and nothing but lyrics of notes changes: chords, pitches and the other
    parts are as before.  This holds for any table of syllables; with the
    table of the script, which has 116 of them, it is what [add_lyrics]
    returns. *)
Theorem add_lyrics_first_part_only
    (syllables : list string) (part : list Measure) (rest : list (list Measure)) :
  add_lyrics_with syllables [] = ([], []) ∧
  ∃ part',
    add_lyrics_with syllables (part :: rest)
    = (part' :: rest, [Nat.min (length syllables) (length (notes_list part))]) ∧
    (syllables = lyrics →
     add_lyrics (part :: rest)
     = (part' :: rest, [Nat.min 116 (length (notes_list part))])) ∧
    strip_lyrics part' = strip_lyrics part ∧
    part_chords part' = part_chords part ∧
    (∀ r n, lookup_note part r = Some n → r ∈ notes_list part) ∧
    (∀ i r,
       notes_list part !! i = Some r →
       ∃ n, lookup_note part r = Some n ∧
            lookup_note part' r
            = Some (match syllables !! i with
                    | Some s => mkNote (pitch n) (Some s)
                    | None => n
                    end)).
Proof.
  split; [reflexivity|].
  destruct (assign_lyrics_spec (notes_list part) part (NoDup_notes_list part)
              syllables) as (Hs & Ha & Hb).
  exists (fold_left (assign_lyric (notes_list part)) (imap pair syllables) part).
  split; [reflexivity|]. split; [by intros ->|]. split; [exact Hs|]. split.
  { by rewrite <- part_chords_strip, Hs, part_chords_strip. }
  split; [apply notes_list_complete|].
  intros i r Hr.
  destruct (lookup_notes_list part r) as [n Hn];
    [by eapply list_elem_of_lookup_2|].
  exists n. split; [done|]. unfold lookup_note in *.
  destruct (lookup_general part r) as [[n'| |]|] eqn:Hg; try done.
  injection Hn as ->.
  destruct (syllables !! i) as [s|] eqn:Hsi.
  - by rewrite (Ha i r s Hr Hsi), Hg.
  - rewrite Hb, Hg; [done|].
    intros i' Hi' Hri'. apply lookup_ge_None in Hsi.
    pose proof (NoDup_lookup _ _ _ _ (NoDup_notes_list part) Hr Hri'). lia.
Qed.

Lemma add_lyrics_first_part_only_witness :
  (∃ part',
     add_lyrics_with ["a"; "b"]%string [two_voices; quiet_part]
     = ([part'; quiet_part], [2%nat]) ∧
     notes_list two_voices !! 1%nat = Some (mkRef 0 0 (Some 1%nat)) ∧
     lookup_note part' (mkRef 0 0 (Some 1%nat)) = Some (mkNote d4 (Some "b"%string)) ∧
     notes_list two_voices !! 3%nat = Some (mkRef 1 0 None) ∧
     lookup_note part' (mkRef 1 0 None) = Some (mkNote c4 None))
  ∧ (∃ part',
       add_lyrics [two_voices; quiet_part] = ([part'; quiet_part], [4%nat]) ∧
       lookup_note part' (mkRef 0 0 (Some 1%nat))
       = Some (mkNote d4 (Some "peace,"%string))).
Proof.
  split.
  - destruct (add_lyrics_first_part_only ["a"; "b"]%string two_voices [quiet_part])
      as (_ & part' & Heq & _ & _ & _ & _ & Hnotes).
    exists part'. split; [exact Heq|].
    split; [reflexivity|]. split.
    + destruct (Hnotes 1%nat (mkRef 0 0 (Some 1%nat)) eq_refl) as (n & Hn & Hl).
      vm_compute in Hn. injection Hn as <-. exact Hl.
    + split; [reflexivity|].
      destruct (Hnotes 3%nat (mkRef 1 0 None) eq_refl) as (n & Hn & Hl).
      vm_compute in Hn. injection Hn as <-. exact Hl.
  - destruct (add_lyrics_first_part_only lyrics two_voices [quiet_part])
      as (_ & part' & _ & Heq & _ & _ & _ & Hnotes).
    exists part'. split; [exact (Heq eq_refl)|].
    destruct (Hnotes 1%nat (mkRef 0 0 (Some 1%nat)) eq_refl) as (n & Hn & Hl).
    vm_compute in Hn. injection Hn as <-. exact Hl.
Defined.

(** C5, as it is worded, fails: a note beyond the last syllable that had a
    lyric still has it afterwards.  With one syllable for two notes that
    are sung already the second note keeps its lyric, and with the table of
    the script the 117th note of a part keeps its own. *)
Lemma sung_notes_keep_their_lyric :
  ¬ remaining_without_lyric ["a"] sung_already
  ∧ ¬ remaining_without_lyric lyrics sung_through.
Proof.
  split; intros H; destruct (H []) as (part' & H1 & H2).
  - injection H1 as <-.
    destruct (H2 1%nat (mkRef 0 1 None) eq_refl) as (n & Hn & Hl); [simpl; lia|].
    vm_compute in Hn. injection Hn as <-. discriminate Hl.
  - injection H1 as <-.
    assert (notes_list sung_through !! 116%nat = Some (mkRef 116 0 None)) as Hr
      by (vm_compute; reflexivity).
    destruct (H2 116%nat (mkRef 116 0 None) Hr) as (n & Hn & Hl);
      [vm_compute; lia|].
    vm_compute in Hn. injection Hn as <-. discriminate Hl.
Qed.

(** ** The renderer *)

(** C8, as the code has it.  [export_to_pdf] raises [RuntimeError] exactly
    when the renderer ends with a status other than 0, and the message is
    then "MuseScore export failed: " followed by the diagnostic text of the
    renderer as it is; with status 0 the path of the PDF comes back and
    nothing is raised; a renderer that does not end within 120 seconds makes
    the call raise its timeout error, which goes through unchanged. *)
Theorem export_to_pdf_outcome {World}
    (run_command : list string → Z → World → RunOutcome * World)
    (musicxml_path pdf_path : string) (env : Env) :
  let out := (run_command (musescore_command musicxml_path pdf_path) 120
                (world env)).1 in
  let res := (export_to_pdf run_command musicxml_path pdf_path env).1 in
  ((∃ msg, res = inl (RuntimeError msg))
   ↔ (∃ rc so se, out = CompletedProcess rc so se ∧ rc ≠ 0))
  ∧ (∀ rc so se, out = CompletedProcess rc so se → rc ≠ 0 →
       res = inl (RuntimeError ("MuseScore export failed: " +:+ se)))
  ∧ (∀ so se, out = CompletedProcess 0 so se → res = inr pdf_path)
  ∧ (∀ so se, out = TimedOut so se →
       res = inl (TimeoutExpired (musescore_command musicxml_path pdf_path) 120
                    so se)).
Proof.
  unfold export_to_pdf, subprocess_run, musescore_command. cbv zeta.
  destruct (run_command _ 120 (world env)) as [[rc so se|so se] w]; simpl.
  - destruct (rc =? 0) eqn:Hrc; simpl.
    + apply Z.eqb_eq in Hrc as ->.
      split; [split|split; [|split]].
      * by intros [msg ?].
      * intros (rc' & so' & se' & Heq & Hne). congruence.
      * intros rc' so' se' Heq Hne. congruence.
      * done.
      * done.
    + apply Z.eqb_neq in Hrc.
      split; [split|split; [|split]].
      * intros _. by exists rc, so, se.
      * intros _. by eexists.
      * by intros rc' so' se' [= <- <- <-] _.
      * intros so' se' Heq. congruence.
      * done.
  - split; [split|split; [|split]]; try done.
    + by intros [msg ?].
    + by intros (rc & so' & se' & ? & _).
    + by intros so' se' [= <- <-].
Qed.

Lemma export_to_pdf_outcome_witness :
  let failing := λ (cmd : list string) (t : Z) (w : unit),
                   (CompletedProcess 1 "" "no such file", w) in
  (export_to_pdf failing "final.musicxml" "out.pdf" (mkEnv tt [])).1
  = inl (RuntimeError "MuseScore export failed: no such file")
  ∧ (export_to_pdf hanging_renderer "final.musicxml" "out.pdf" (mkEnv tt [])).1
    = inl (TimeoutExpired (musescore_command "final.musicxml" "out.pdf") 120
             "" "font not found").
Proof.
  intros failing. split.
  - apply (proj1 (proj2 (export_to_pdf_outcome failing "final.musicxml" "out.pdf"
                           (mkEnv tt []))) 1 ""%string "no such file"%string);
      [reflexivity|lia].
  - apply (proj2 (proj2 (proj2 (export_to_pdf_outcome hanging_renderer
                                  "final.musicxml" "out.pdf" (mkEnv tt []))))
             ""%string "font not found"%string).
    reflexivity.
Defined.

(** C8, as it is worded, fails: with a renderer that is still running after
    120 seconds an error is raised although the renderer never ended with a
    status, and the error is not one whose message holds the diagnostic
    text. *)
Lemma hanging_renderer_refutes_iff : ¬ raises_iff_renderer_fails hanging_renderer.
Proof.
  intros H.
  destruct (H "final.musicxml"%string "out.pdf"%string (mkEnv tt []))
    as (_ & Hmsg & _).
  destruct (Hmsg _ eq_refl) as (rc & so & se & pre & Hout & _).
  discriminate Hout.
Qed.

(** ** The recognition stage *)

Section Recognition.

Context {World : Type}.
Variable run_command : list string → Z → World → RunOutcome * World.
Variable glob_glob : string → World → list string.
Variable os_makedirs : string → World → World.

(** The loop runs the recogniser on the images it is given, in order and on
    nothing else; it runs it on all of them unless a run is cut short. *)
Lemma ocr_pages_calls output_dir imgs :
  ∀ xml_files env,
    let r := ocr_pages run_command glob_glob os_makedirs output_dir imgs
               xml_files env in
    ∃ n, calls r.2 = calls env ++ (oemer_command output_dir <$> take n imgs)
         ∧ (∀ xs, r.1 = inr xs → n = length imgs).
Proof.
  induction imgs as [|img imgs IH]; intros xml_files env; cbv zeta.
  - exists 0%nat. simpl. by rewrite app_nil_r.
  - cbn [ocr_pages]. unfold subprocess_run. cbn [world calls].
    destruct (run_command _ 600 _) as [[rc so se|so se] w]; cbv beta iota.
    + match goal with |- context [ocr_pages _ _ _ _ _ ?x ?e] =>
        destruct (IH x e) as (n & Hc & Hn) end.
      exists (S n). split.
      * rewrite Hc. cbn [calls take fmap list_fmap]. by rewrite <- app_assoc.
      * intros xs Hxs. cbn [length]. f_equal. exact (Hn xs Hxs).
    + exists 1%nat. split; [done|]. simpl. by intros.
Qed.

(** C9.  The recognition stage never looks at the first page image: on a
    list of images with a first one, the recogniser is run on images from
    index 1 onward only, in their order, and what the stage returns and does
    is the same whatever the first image is. *)
Theorem ocr_skips_first_page
    (first : string) (rest : list string) (output_dir : string) (env : Env) :
  let r := ocr_images_to_musicxml run_command glob_glob os_makedirs
             (first :: rest) output_dir env in
  (∃ n, calls r.2 = calls env ++ (oemer_command output_dir <$> take n rest)
        ∧ (∀ xs, r.1 = inr xs → n = length rest))
  ∧ (∀ first',
       ocr_images_to_musicxml run_command glob_glob os_makedirs
         (first' :: rest) output_dir env = r).
Proof.
  cbv zeta. split; [|done].
  unfold ocr_images_to_musicxml. change (drop 1 (first :: rest)) with rest.
  destruct (ocr_pages_calls output_dir rest []
              (mkEnv (os_makedirs output_dir (world env)) (calls env)))
    as (n & Hc & Hn).
  destruct (ocr_pages run_command glob_glob os_makedirs output_dir rest [] _)
    as [[e'|xs] env']; simpl in *.
  - exists n. split; [exact Hc|]. by intros.
  - exists n. split; [exact Hc|]. intros _ _. by eapply Hn.
Qed.

End Recognition.

Lemma ocr_skips_first_page_witness :
  let oemer := λ (cmd : list string) (t : Z) (w : unit),
                 (CompletedProcess 0 "" "", w) in
  let found := λ (pattern : string) (w : unit), [pattern] in
  let imgs := ["img/page_01.png"; "img/page_02.png"; "img/page_03.png"]%string in
  let r := ocr_images_to_musicxml oemer found (λ _ w, w) imgs "xml" (mkEnv tt []) in
  r.1 = inr ["xml/page_02/*.musicxml"; "xml/page_03/*.musicxml"]%string
  ∧ calls r.2 = [ ["oemer"; "img/page_02.png"; "-o"; "xml/page_02"];
                  ["oemer"; "img/page_03.png"; "-o"; "xml/page_03"] ]%string.
Proof.
  intros oemer found imgs r. split; [reflexivity|].
  destruct (proj1 (ocr_skips_first_page oemer found (λ _ w, w)
                     "img/page_01.png" ["img/page_02.png"; "img/page_03.png"]%string
                     "xml" (mkEnv tt [])))
    as (n & Hc & Hn).
  rewrite (Hn _ eq_refl) in Hc. exact Hc.
Defined.

(** ** The combining stage *)

Section Combine.

Variable converter_parse : string → list (list Measure).

Lemma append_measures_alter part_idx measures :
  ∀ combined,
    append_measures part_idx combined measures
    = alter (λ p, p ++ measures) part_idx combined.
Proof.
  unfold append_measures.
  induction measures as [|m ms IH]; intros combined; simpl.
  - symmetry. apply list_eq. intros j.
    destruct (decide (part_idx = j)) as [->|Hne].
    + rewrite list_lookup_alter_eq. destruct (combined !! j); simpl; [|done].
      by rewrite app_nil_r.
    + by rewrite list_lookup_alter_ne.
  - rewrite IH. apply list_eq. intros j.
    destruct (decide (part_idx = j)) as [->|Hne].
    + rewrite !list_lookup_alter_eq. destruct (combined !! j); simpl; [|done].
      by rewrite <- app_assoc.
    + by rewrite !list_lookup_alter_ne.
Qed.

Lemma append_page_lookup (score combined : list (list Measure)) :
  length (append_page combined score) = length combined
  ∧ ∀ i, append_page combined score !! i
         = (λ p, p ++ default [] (score !! i)) <$> combined !! i.
Proof.
  unfold append_page.
  induction score as [|part score IH] using rev_ind.
  - simpl. split; [done|]. intros i. destruct (combined !! i); simpl; [|done].
    by rewrite app_nil_r.
  - rewrite imap_app, fold_left_app. simpl. rewrite Nat.add_0_r.
    destruct IH as [IHl IHi].
    set (c := fold_left _ (imap pair score) combined) in *.
    case_bool_decide as Hlt.
    + rewrite append_measures_alter. split; [by rewrite length_alter|].
      intros i. destruct (decide (length score = i)) as [<-|Hne].
      * rewrite list_lookup_alter_eq, IHi, list_lookup_middle by done.
        rewrite (lookup_ge_None_2 score) by lia.
        destruct (combined !! length score); simpl; [|done].
        by rewrite app_nil_r.
      * rewrite list_lookup_alter_ne, IHi by done.
        destruct (decide (i < length score)%nat).
        -- by rewrite lookup_app_l.
        -- rewrite (lookup_ge_None_2 score), (lookup_ge_None_2 (score ++ [part]));
             [done|rewrite length_app; simpl; lia|lia].
    + split; [done|]. intros i. rewrite IHi.
      destruct (decide (i < length score)%nat).
      * by rewrite lookup_app_l.
      * destruct (decide (i = length score)) as [->|].
        -- rewrite (lookup_ge_None_2 combined); [done|lia].
        -- rewrite (lookup_ge_None_2 score), (lookup_ge_None_2 (score ++ [part]));
             [done|rewrite length_app; simpl; lia|lia].
Qed.

Lemma combine_pages_lookup (others : list string) :
  ∀ combined : list (list Measure),
    let out := fold_left (λ c xml_file, append_page c (converter_parse xml_file))
                 others combined in
    length out = length combined
    ∧ ∀ i, out !! i
           = (λ p, p ++ mjoin ((λ f, default [] (converter_parse f !! i)) <$> others))
               <$> combined !! i.
Proof.
  induction others as [|f others IH]; intros combined; cbv zeta.
  - simpl. split; [done|]. intros i. destruct (combined !! i); simpl; [|done].
    by rewrite app_nil_r.
  - cbn [fold_left]. destruct (append_page_lookup (converter_parse f) combined)
      as [Hl Hi].
    destruct (IH (append_page combined (converter_parse f))) as [IHl IHi].
    split; [by rewrite IHl|]. intros i. rewrite IHi, Hi.
    destruct (combined !! i); csimpl; [|done]. by rewrite <- app_assoc.
Qed.

(** C10.  The combined score keeps the parts of the first page: it has as
    many parts as the score of the first page, and its part [i] is part [i]
    of the first page followed by the measures of part [i] of every later
    page that has a part [i], in the order of the pages.  The parts a later
    page has beyond those of the first page go nowhere. *)
Theorem combine_keeps_first_page_parts (first : string) (others : list string) :
  ∃ combined,
    combine_musicxml_pages converter_parse (first :: others) = inr combined
    ∧ length combined = length (converter_parse first)
    ∧ ∀ i, combined !! i
           = (λ p, p ++ mjoin ((λ f, default [] (converter_parse f !! i)) <$> others))
               <$> converter_parse first !! i.
Proof.
  eexists. split; [reflexivity|].
  apply (combine_pages_lookup others (converter_parse first)).
Qed.

End Combine.

(** * Further properties *)

(** ** What [remove_key_change] keeps *)

Lemma filter_bool_length {A} (f : A → bool) (l : list A) :
  (length (List.filter f l) + length (List.filter (λ x, negb (f x)) l))%nat
  = length l.
Proof.
  induction l as [|x l IH]; simpl; [done|].
  destruct (f x); simpl; lia.
Qed.

Lemma replaced_elements_length m :
  length (replaced_elements m) = length (elements m).
Proof.
  unfold replaced_elements, qualifying_count.
  rewrite length_app, length_replicate.
  pose proof (filter_bool_length qualifies (elements m)). lia.
Qed.

Lemma process_measures_lookup_modulated part j m :
  part !! j = Some m →
  (process_measures initial_state part).1 !! j
  = Some (if modulated part j then transpose_measure (replaced_measure m) else m).
Proof. intros Hj. by rewrite (process_measures_lookup _ _ _ _ Hj). Qed.

(** X1.  The transform keeps the shape of the score: as many parts, as many
    measures in each part, and each measure with its number and with as many
    elements as before. *)
Theorem remove_key_change_keeps_shape (score : list (list Measure)) :
  length (remove_key_change score).1 = length score
  ∧ length (remove_key_change score).2 = length score
  ∧ ∀ p part,
      score !! p = Some part →
      ∃ part',
        (remove_key_change score).1 !! p = Some part'
        ∧ length part' = length part
        ∧ ∀ j m,
            part !! j = Some m →
            ∃ m', part' !! j = Some m' ∧ number m' = number m
                  ∧ length (elements m') = length (elements m).
Proof.
  split; [unfold remove_key_change; cbn [fst]; by rewrite !length_fmap|].
  split; [unfold remove_key_change; cbn [snd]; by rewrite !length_fmap|].
  intros p part Hp. destruct (remove_key_change_lookup _ _ _ Hp) as [Hout _].
  eexists. split; [exact Hout|]. split; [apply process_measures_length|].
  intros j m Hj. eexists. split; [exact (process_measures_lookup_modulated _ _ _ Hj)|].
  destruct (modulated part j); [|done]. split; [done|].
  unfold transpose_measure, replaced_measure; cbn [elements].
  by rewrite length_fmap, replaced_elements_length.
Qed.

Lemma qualifies_is_key_signature e : qualifies e = true → not_key_signature e = false.
Proof. destruct e as [o []]; unfold qualifies, not_key_signature; simpl; done. Qed.

Lemma other_elements_replaced m :
  other_elements (replaced_measure m) = other_elements m.
Proof.
  unfold other_elements, replaced_measure, replaced_elements; cbn [elements].
  rewrite List.filter_app.
  assert (List.filter not_key_signature
            (replicate (qualifying_count m) (0%Q, EKeySignature replacement_key))
          = []) as -> by (induction (qualifying_count m); simpl; done).
  rewrite app_nil_r.
  induction (elements m) as [|e es IH]; simpl; [done|].
  destruct (qualifies e) eqn:Hq; simpl.
  - by rewrite (qualifies_is_key_signature _ Hq).
  - by rewrite IH.
Qed.

Lemma other_elements_transpose m :
  other_elements (transpose_measure m)
  = prod_map id transpose_element <$> other_elements m.
Proof.
  unfold other_elements, transpose_measure; cbn [elements].
  induction (elements m) as [|[o e] es IH]; csimpl; [done|].
  rewrite IH. by destruct e.
Qed.

(** X2.  Apart from its key signatures a measure keeps all its elements, in
    their order and at their offsets: untouched before the modulation, each
    one transposed from the trigger measure on.  Rests, clefs and the like,
    and the lyrics of notes, come through as they were. *)
Theorem remove_key_change_other_elements
    (score : list (list Measure)) (p j : nat) (part : list Measure)
    (m : Measure) :
  score !! p = Some part →
  part !! j = Some m →
  ∃ part' m',
    (remove_key_change score).1 !! p = Some part'
    ∧ part' !! j = Some m'
    ∧ other_elements m'
      = if modulated part j
        then prod_map id transpose_element <$> other_elements m
        else other_elements m.
Proof.
  intros Hp Hj. destruct (remove_key_change_lookup _ _ _ Hp) as [Hout _].
  eexists _, _. split; [exact Hout|].
  split; [exact (process_measures_lookup_modulated _ _ _ Hj)|].
  destruct (modulated part j); [|done].
  by rewrite other_elements_transpose, other_elements_replaced.
Qed.

Lemma remove_key_change_other_elements_witness :
  ∃ part' m',
    (remove_key_change [[mid_measure_change]]).1 !! 0%nat = Some part'
    ∧ part' !! 0%nat = Some m'
    ∧ other_elements m'
      = [(0%Q, plain_note (Pitch.mk Pitch.B 0 3));
         (2%Q, plain_note (Pitch.mk Pitch.C 1 4))].
Proof.
  exact (remove_key_change_other_elements [[mid_measure_change]] 0 0
           [mid_measure_change] mid_measure_change eq_refl eq_refl).
Defined.

(** X3.  The two counts printed for a part go together: no measure is
    transposed exactly when no key signature was replaced, and never more
    measures are transposed than the part has. *)
Theorem remove_key_change_counts_agree
    (score : list (list Measure)) (p : nat) (part : list Measure)
    (replaced transposed : nat) :
  score !! p = Some part →
  (remove_key_change score).2 !! p = Some (replaced, transposed) →
  (replaced = 0%nat ↔ transposed = 0%nat) ∧ (transposed ≤ length part)%nat.
Proof.
  intros Hp Hc. destruct (remove_key_change_lookup _ _ _ Hp) as [_ Hc'].
  rewrite Hc' in Hc. injection Hc as <- <-. clear.
  induction part as [|m ms [IH1 IH2]]; [done|].
  unfold part_qualifying_count in *. cbn [transposed_from orb]. csimpl.
  rewrite triggers_count. unfold id.
  destruct (qualifying_count m) as [|k]; simpl; [|split; [done|lia]].
  split; [|lia]. done.
Qed.

Lemma remove_key_change_counts_agree_witness :
  ((1 = 0)%nat ↔ (2 = 0)%nat) ∧ (2 ≤ length three_measures)%nat.
Proof.
  exact (remove_key_change_counts_agree [three_measures; quiet_part] 0
           three_measures 1 2 eq_refl eq_refl).
Defined.

(** ** Notes in the order of the flattened part *)

Lemma insert_by_offset_fmap {A B} (f : A → B) (x : Offset * A) l :
  insert_by_offset (prod_map id f x) (prod_map id f <$> l)
  = prod_map id f <$> insert_by_offset x l.
Proof.
  induction l as [|y l IH]; csimpl; [done|].
  destruct (Qle_bool x.1 y.1); csimpl; [done|]. by rewrite IH.
Qed.

Lemma sort_by_offset_fmap {A B} (f : A → B) (l : list (Offset * A)) :
  sort_by_offset (prod_map id f <$> l) = prod_map id f <$> sort_by_offset l.
Proof.
  induction l as [|x l IH]; csimpl; [done|].
  unfold sort_by_offset in *. by rewrite IH, insert_by_offset_fmap.
Qed.

Lemma filter_bool_fmap {A B} (g : A → B) (f : B → bool) (l : list A) :
  List.filter f (g <$> l) = g <$> List.filter (λ x, f (g x)) l.
Proof.
  induction l as [|x l IH]; csimpl; [done|].
  destruct (f (g x)); csimpl; by rewrite IH.
Qed.

Lemma fmap_join_imap {A B C} (h : B → C) (f : nat → A → list B)
    (f' : nat → A → list C) (l : list A) :
  (∀ i x, f' i x = h <$> f i x) →
  mjoin (imap f' l) = h <$> mjoin (imap f l).
Proof.
  revert f f'; induction l as [|a l IH]; intros f f' Hf; csimpl; [done|].
  rewrite fmap_app, Hf. f_equal. apply IH. intros i x. apply Hf.
Qed.

Lemma join_imap_bind {A B} (g : A → list B) (f : nat → A → list B) (l : list A) :
  (∀ i x, f i x = g x) → mjoin (imap f l) = l ≫= g.
Proof.
  revert f; induction l as [|a l IH]; intros f Hf; csimpl; [done|].
  rewrite Hf. f_equal. apply IH. intros i x. apply Hf.
Qed.

Lemma imap_index_free {A B} (f : nat → A → B) (g : A → B) (l : list A) :
  (∀ i x, f i x = g x) → imap f l = g <$> l.
Proof.
  revert f; induction l as [|a l IH]; intros f Hf; csimpl; [done|].
  rewrite Hf. f_equal. apply IH. intros i x. apply Hf.
Qed.

Lemma element_flat_events mi ei e :
  prod_map id snd <$> element_flat mi ei e = element_events e.
Proof.
  unfold element_flat, element_events. destruct e as [o [g|k|v|c]]; csimpl; try done.
  rewrite fmap_imap. by apply imap_index_free.
Qed.

Lemma measure_flat_events mi m :
  prod_map id snd <$> measure_flat mi m = measure_events m.
Proof.
  unfold measure_flat, measure_events.
  rewrite <- (fmap_join_imap (prod_map id snd) (element_flat mi)
                (λ _ e, element_events e));
    [by apply join_imap_bind|].
  intros ei e. symmetry. apply element_flat_events.
Qed.

Lemma omap_note_events {R} (l : list (Offset * (R * GeneralNote))) :
  omap (λ x, note_of x.2.2) l
  = omap (λ og, note_of og.2) (prod_map id snd <$> l).
Proof.
  induction l as [|[o [r g]] l IH]; csimpl; [done|]. by rewrite IH.
Qed.

Lemma notes_in_order_measures part :
  notes_in_order part = part ≫= measure_notes_in_order.
Proof.
  unfold notes_in_order.
  rewrite omap_note_events.
  unfold part_flatten_notes.
  rewrite <- (fmap_join_imap (prod_map id snd) _
                (λ _ m, sort_by_offset
                          (List.filter
                             (λ og, match og.2 with GRest => false | _ => true end)
                             (measure_events m)))).
  - rewrite (join_imap_bind
               (λ m, sort_by_offset
                       (List.filter
                          (λ og, match og.2 with GRest => false | _ => true end)
                          (measure_events m)))) by done.
    unfold measure_notes_in_order.
    induction part as [|m ms IH]; csimpl; [done|].
    rewrite <- IH. apply omap_app.
  - intros mi m.
    by rewrite <- sort_by_offset_fmap, <- (measure_flat_events mi m),
         filter_bool_fmap.
Qed.

Lemma element_events_transpose o e :
  element_events (o, transpose_element e)
  = prod_map id transpose_general <$> element_events (o, e).
Proof.
  unfold element_events. destruct e as [g|k|v|c]; csimpl; try done.
  rewrite <- !list_fmap_compose. by apply list_fmap_ext.
Qed.

Lemma measure_events_transpose m :
  measure_events (transpose_measure m)
  = prod_map id transpose_general <$> measure_events m.
Proof.
  unfold measure_events, transpose_measure; cbn [elements].
  induction (elements m) as [|[o e] es IH]; csimpl; [done|].
  by rewrite fmap_app, IH, (element_events_transpose o e).
Qed.

Lemma measure_events_replaced m :
  measure_events (replaced_measure m) = measure_events m.
Proof.
  unfold measure_events, replaced_measure, replaced_elements; cbn [elements].
  rewrite bind_app.
  assert (replicate (qualifying_count m) (0%Q, EKeySignature replacement_key)
            ≫= element_events = []) as ->
    by (induction (qualifying_count m); csimpl; done).
  rewrite app_nil_r.
  induction (elements m) as [|e es IH]; csimpl; [done|].
  destruct (qualifies e) eqn:Hq; csimpl; [|by rewrite IH].
  rewrite IH. destruct e as [o []]; unfold qualifies in Hq; simpl in Hq; done.
Qed.

Lemma measure_notes_transpose m :
  measure_notes_in_order (transpose_measure m)
  = transpose_note <$> measure_notes_in_order m.
Proof.
  unfold measure_notes_in_order.
  rewrite measure_events_transpose, filter_bool_fmap, sort_by_offset_fmap.
  rewrite (List.filter_ext _
             (λ og : Offset * GeneralNote,
                match og.2 with GRest => false | _ => true end))
    by (intros [o g]; by destruct g).
  induction (sort_by_offset _) as [|[o g] l IH]; csimpl; [done|].
  rewrite IH. by destruct g.
Qed.

Lemma measure_notes_replaced m :
  measure_notes_in_order (replaced_measure m) = measure_notes_in_order m.
Proof. unfold measure_notes_in_order. by rewrite measure_events_replaced. Qed.

Lemma process_measures_imap part :
  (process_measures initial_state part).1
  = imap (λ j m, if modulated part j
                 then transpose_measure (replaced_measure m) else m) part.
Proof.
  apply list_eq. intros j. rewrite list_lookup_imap.
  destruct (part !! j) as [m|] eqn:Hj; simpl.
  - by apply process_measures_lookup_modulated.
  - apply lookup_ge_None. rewrite process_measures_length.
    by apply lookup_ge_None.
Qed.

Lemma process_measures_keeps_lyrics part :
  lyric <$> notes_in_order (process_measures initial_state part).1
  = lyric <$> notes_in_order part.
Proof.
  rewrite process_measures_imap, !notes_in_order_measures.
  generalize (modulated part). intros f.
  revert f; induction part as [|m ms IH] using rev_ind; intros f; [done|].
  rewrite imap_app, !bind_app, !fmap_app, IH. f_equal. csimpl.
  rewrite !app_nil_r. destruct (f _); [|done].
  rewrite measure_notes_transpose, measure_notes_replaced.
  rewrite <- list_fmap_compose. by apply list_fmap_ext.
Qed.

(** X4.  Transposing loses no lyric: the notes of a part, read in the order of
    the flattened part, carry after the transform the lyrics they carried
    before, and there are as many of them. *)
Theorem remove_key_change_keeps_lyrics
    (score : list (list Measure)) (p : nat) (part : list Measure) :
  score !! p = Some part →
  ∃ part',
    (remove_key_change score).1 !! p = Some part'
    ∧ lyric <$> notes_in_order part' = lyric <$> notes_in_order part.
Proof.
  intros Hp. destruct (remove_key_change_lookup _ _ _ Hp) as [Hout _].
  eexists. split; [exact Hout|]. apply process_measures_keeps_lyrics.
Qed.

Lemma remove_key_change_keeps_lyrics_witness :
  let sung := [mkMeasure 1 [(0%Q, EKeySignature 6);
                            (0%Q, EGeneral (GNote (mkNote c4 (Some "well"%string))))]] in
  ∃ part',
    (remove_key_change [sung]).1 !! 0%nat = Some part'
    ∧ lyric <$> notes_in_order part' = [Some "well"%string].
Proof.
  intros sung.
  exact (remove_key_change_keeps_lyrics [sung] 0 sung eq_refl).
Defined.

(** ** What [add_lyrics] leaves in the first part *)

Lemma element_flat_strip mi ei (e : Offset * Element) :
  element_flat mi ei (prod_map id strip_element e)
  = prod_map id (prod_map id strip_general) <$> element_flat mi ei e.
Proof.
  unfold element_flat. destruct e as [o [g|k|v|c]]; csimpl; try done.
  rewrite imap_fmap, fmap_imap. apply imap_ext. by intros i [ov g] _.
Qed.

Lemma measure_flat_strip mi m :
  measure_flat mi (mkMeasure (number m) (prod_map id strip_element <$> elements m))
  = prod_map id (prod_map id strip_general) <$> measure_flat mi m.
Proof.
  unfold measure_flat; cbn [elements]. rewrite imap_fmap.
  apply fmap_join_imap. intros ei e. apply element_flat_strip.
Qed.

Lemma part_flatten_notes_strip part :
  part_flatten_notes (strip_lyrics part)
  = prod_map id (prod_map id strip_general) <$> part_flatten_notes part.
Proof.
  unfold part_flatten_notes, strip_lyrics. rewrite imap_fmap.
  apply fmap_join_imap. intros mi m. unfold compose.
  rewrite <- sort_by_offset_fmap. f_equal.
  rewrite measure_flat_strip, filter_bool_fmap.
  f_equal. apply List.filter_ext. intros [o [r g]]. by destruct g.
Qed.

Lemma notes_list_strip part : notes_list (strip_lyrics part) = notes_list part.
Proof.
  unfold notes_list. rewrite part_flatten_notes_strip.
  induction (part_flatten_notes part) as [|[o [r g]] l IH]; csimpl; [done|].
  rewrite IH. by destruct g.
Qed.

Lemma notes_list_same_strip part1 part2 :
  strip_lyrics part1 = strip_lyrics part2 → notes_list part1 = notes_list part2.
Proof. intros H. by rewrite <- (notes_list_strip part1), H, notes_list_strip. Qed.

Lemma notes_in_order_lookup part i r :
  notes_list part !! i = Some r →
  notes_in_order part !! i = lookup_note part r.
Proof.
  unfold notes_list, notes_in_order.
  assert (Forall (λ x, lookup_general part (entry_ref x) = Some x.2.2)
            (part_flatten_notes part)) as Hall
    by (apply Forall_forall; intros x; apply lookup_flattened).
  revert i. induction Hall as [|[o [r' g]] l Hx _ IH]; intros i; csimpl; [done|].
  unfold entry_ref in Hx; simpl in Hx. unfold note_ref_of at 1; simpl.
  destruct g as [n| |]; csimpl; try apply IH.
  destruct i as [|i]; simpl; [|apply IH].
  intros [= <-]. unfold lookup_note. by rewrite Hx.
Qed.

Lemma notes_in_order_length part :
  length (notes_in_order part) = length (notes_list part).
Proof.
  unfold notes_list, notes_in_order.
  induction (part_flatten_notes part) as [|[o [r g]] l IH]; csimpl; [done|].
  unfold note_ref_of at 1; simpl. destruct g; csimpl; by rewrite ?IH.
Qed.

Lemma set_general_lyric_twice s s' g :
  set_general_lyric s (set_general_lyric s' g) = set_general_lyric s g.
Proof. by destruct g. Qed.

(** What the loop over the syllables leaves at a reference. *)
Lemma assign_lyrics_lookup (notes : list NoteRef) part syllables i r :
  NoDup notes →
  notes !! i = Some r →
  lookup_general (fold_left (assign_lyric notes) (imap pair syllables) part) r
  = match syllables !! i with
    | Some s => set_general_lyric s <$> lookup_general part r
    | None => lookup_general part r
    end.
Proof.
  intros Hnd Hr.
  destruct (assign_lyrics_spec notes part Hnd syllables) as (_ & Ha & Hb).
  destruct (syllables !! i) as [s|] eqn:Hs; [by apply (Ha i)|].
  apply Hb. intros i' Hi' Hr'. apply lookup_ge_None in Hs.
  pose proof (NoDup_lookup _ _ _ _ Hnd Hr Hr'). lia.
Qed.

Lemma assign_lyrics_lookup_other (notes : list NoteRef) part syllables r :
  NoDup notes →
  r ∉ notes →
  lookup_general (fold_left (assign_lyric notes) (imap pair syllables) part) r
  = lookup_general part r.
Proof.
  intros Hnd Hr.
  destruct (assign_lyrics_spec notes part Hnd syllables) as (_ & _ & Hb).
  apply Hb. intros i _ Hi. apply Hr. by eapply list_elem_of_lookup_2.
Qed.

Lemma assign_lyrics_strip (notes : list NoteRef) part syllables :
  NoDup notes →
  strip_lyrics (fold_left (assign_lyric notes) (imap pair syllables) part)
  = strip_lyrics part.
Proof.
  intros Hnd. by destruct (assign_lyrics_spec notes part Hnd syllables) as (? & _).
Qed.

Lemma add_lyrics_part_in_order (syllables : list string) (part : list Measure) :
  lyric <$> notes_in_order (add_lyrics_part syllables part).1
  = (Some <$> take (length (notes_in_order part)) syllables)
    ++ drop (length syllables) (lyric <$> notes_in_order part)
  ∧ pitch <$> notes_in_order (add_lyrics_part syllables part).1
    = pitch <$> notes_in_order part.
Proof.
  set (notes := notes_list part).
  set (part' := fold_left (assign_lyric notes) (imap pair syllables) part).
  change (add_lyrics_part syllables part).1 with part'.
  pose proof (NoDup_notes_list part) as Hnd. fold notes in Hnd.
  assert (notes_list part' = notes) as Hsame
    by (apply notes_list_same_strip, assign_lyrics_strip, Hnd).
  assert (∀ i r, notes !! i = Some r →
            ∃ n, notes_in_order part !! i = Some n
                 ∧ notes_in_order part' !! i
                   = Some (match syllables !! i with
                           | Some s => mkNote (pitch n) (Some s)
                           | None => n
                           end)) as Hat.
  { intros i r Hr.
    destruct (lookup_notes_list part r) as [n Hn];
      [by eapply list_elem_of_lookup_2|].
    exists n. rewrite (notes_in_order_lookup part i r Hr). split; [done|].
    rewrite (notes_in_order_lookup part' i r) by (by rewrite Hsame).
    unfold lookup_note in *. unfold part'.
    rewrite (assign_lyrics_lookup notes part syllables i r Hnd Hr).
    destruct (lookup_general part r) as [[n'| |]|]; try done.
    injection Hn as ->. by destruct (syllables !! i). }
  assert (length (notes_in_order part') = length notes) as Hlen'
    by (by rewrite notes_in_order_length, Hsame).
  assert (length (notes_in_order part) = length notes) as Hlen
    by apply notes_in_order_length.
  split.
  - apply (list_eq_same_length _ _ (length notes)).
    + rewrite length_app, !length_fmap, length_take, length_drop, length_fmap. lia.
    + by rewrite length_fmap.
    + intros i x y Hi Hx Hy.
      destruct (lookup_lt_is_Some_2 notes i Hi) as [r Hr].
      destruct (Hat i r Hr) as (n & Hn & Hn').
      rewrite list_lookup_fmap, Hn' in Hx. simpl in Hx. injection Hx as <-.
      destruct (syllables !! i) as [s|] eqn:Hs.
      * rewrite lookup_app_l in Hy
          by (rewrite length_fmap, length_take; apply lookup_lt_Some in Hs; lia).
        rewrite list_lookup_fmap, lookup_take_lt in Hy by lia.
        rewrite Hs in Hy. by injection Hy as <-.
      * apply lookup_ge_None in Hs.
        rewrite lookup_app_r in Hy by (rewrite length_fmap, length_take; lia).
        rewrite length_fmap, length_take, lookup_drop, list_lookup_fmap in Hy.
        replace (length syllables
                 + (i - length (notes_in_order part) `min` length syllables))%nat
          with i in Hy by lia.
        rewrite Hn in Hy. by injection Hy as <-.
  - apply (list_eq_same_length _ _ (length notes)); rewrite ?length_fmap; try done.
    intros i x y Hi Hx Hy.
    destruct (lookup_lt_is_Some_2 notes i Hi) as [r Hr].
    destruct (Hat i r Hr) as (n & Hn & Hn').
    rewrite list_lookup_fmap, Hn' in Hx. rewrite list_lookup_fmap, Hn in Hy.
    simpl in *. injection Hx as <-. injection Hy as <-.
    by destruct (syllables !! i).
Qed.

(** X5.  Read in the order of the flattened part, the lyrics of the notes of the
    first part are, after [add_lyrics], the syllables as far as there are
    notes for them, followed by what the notes beyond the last syllable
    carried before; the pitches of the notes are as before. *)
Theorem add_lyrics_in_order
    (syllables : list string) (part : list Measure) (rest : list (list Measure)) :
  ∃ part',
    (add_lyrics_with syllables (part :: rest)).1 = part' :: rest
    ∧ lyric <$> notes_in_order part'
      = (Some <$> take (length (notes_in_order part)) syllables)
        ++ drop (length syllables) (lyric <$> notes_in_order part)
    ∧ pitch <$> notes_in_order part' = pitch <$> notes_in_order part.
Proof.
  exists (add_lyrics_part syllables part).1. split; [reflexivity|].
  apply add_lyrics_part_in_order.
Qed.

Lemma fmap_eq_lookup {A B} (f : A → B) (l1 l2 : list A) i :
  f <$> l1 = f <$> l2 → f <$> l1 !! i = f <$> l2 !! i.
Proof. intros H. by rewrite <- !list_lookup_fmap, H. Qed.

(** Two parts that agree once the lyrics of notes are taken off, and that
    hold the same object at every reference, are the same part. *)
Lemma part_ext (part1 part2 : list Measure) :
  strip_lyrics part1 = strip_lyrics part2 →
  (∀ r, lookup_general part1 r = lookup_general part2 r) →
  part1 = part2.
Proof.
  intros Hs Hl. apply list_eq. intros mi.
  pose proof (fmap_eq_lookup _ _ _ mi Hs) as Hm.
  destruct (part1 !! mi) as [[n1 es1]|] eqn:H1,
           (part2 !! mi) as [[n2 es2]|] eqn:H2; simpl in Hm; try done.
  injection Hm as -> Hes. do 2 f_equal. apply list_eq. intros ei.
  pose proof (fmap_eq_lookup _ _ _ ei Hes) as He.
  destruct (es1 !! ei) as [[o1 e1]|] eqn:He1,
           (es2 !! ei) as [[o2 e2]|] eqn:He2; simpl in He; try done.
  injection He as -> He. do 2 f_equal.
  assert (∀ vo, lookup_general part1 (mkRef mi ei vo)
                = lookup_general part2 (mkRef mi ei vo)) as Hv by (intros; apply Hl).
  unfold lookup_general in Hv. simpl in Hv. rewrite H1, H2 in Hv. simpl in Hv.
  rewrite He1, He2 in Hv. simpl in Hv.
  destruct e1 as [g1|k1|v1|c1], e2 as [g2|k2|v2|c2]; simpl in He; try done.
  - specialize (Hv None). simpl in Hv. congruence.
  - f_equal. injection He as He. apply list_eq. intros vi.
    pose proof (fmap_eq_lookup _ _ _ vi He) as Hvi.
    specialize (Hv (Some vi)). simpl in Hv.
    destruct (v1 !! vi) as [[ov1 g1]|], (v2 !! vi) as [[ov2 g2]|];
      simpl in *; try done.
    congruence.
Qed.

Lemma add_lyrics_part_twice (s1 s2 : list string) (part : list Measure) :
  (add_lyrics_part s2 (add_lyrics_part s1 part).1).1
  = (add_lyrics_part (s2 ++ drop (length s2) s1) part).1.
Proof.
  unfold add_lyrics_part; cbn [fst].
  set (notes := notes_list part).
  set (q := fold_left (assign_lyric notes) (imap pair s1) part).
  pose proof (NoDup_notes_list part) as Hnd. fold notes in Hnd.
  assert (notes_list q = notes) as ->
    by (apply notes_list_same_strip, assign_lyrics_strip, Hnd).
  apply part_ext.
  - unfold q. by rewrite !assign_lyrics_strip.
  - intros r. destruct (decide (r ∈ notes)) as [Hin|Hout].
    + apply list_elem_of_lookup_1 in Hin as [i Hi].
      rewrite !(assign_lyrics_lookup notes _ _ i r Hnd Hi). unfold q.
      rewrite (assign_lyrics_lookup notes _ _ i r Hnd Hi).
      destruct (s2 !! i) as [x|] eqn:Hx.
      * rewrite (lookup_app_l_Some _ _ _ _ Hx).
        destruct (s1 !! i); [|done].
        rewrite <- option_fmap_compose. apply option_fmap_ext.
        intros g. apply set_general_lyric_twice.
      * apply lookup_ge_None in Hx.
        rewrite lookup_app_r, lookup_drop by done.
        by replace (length s2 + (i - length s2))%nat with i by lia.
    + unfold q. by rewrite !assign_lyrics_lookup_other.
Qed.

(** X6.  Running [add_lyrics] a second time over the score it has produced:
    with the same syllables nothing changes and the same count is printed;
    with other syllables the second table wins as far as it reaches, and
    the first one shows on the notes beyond it. *)
Theorem add_lyrics_twice (s1 s2 : list string) (score : list (list Measure)) :
  add_lyrics_with s1 (add_lyrics_with s1 score).1 = add_lyrics_with s1 score
  ∧ (add_lyrics_with s2 (add_lyrics_with s1 score).1).1
    = (add_lyrics_with (s2 ++ drop (length s2) s1) score).1.
Proof.
  destruct score as [|part rest]; [done|]. split.
  - unfold add_lyrics_with; csimpl. rewrite !drop_0.
    pose proof (add_lyrics_part_twice s1 s1 part) as H.
    rewrite drop_all, app_nil_r in H.
    unfold add_lyrics_part in H; cbn [fst] in H. rewrite H.
    rewrite (notes_list_same_strip
               (fold_left (assign_lyric (notes_list part)) (imap pair s1) part)
               part)
      by apply assign_lyrics_strip, NoDup_notes_list.
    done.
  - unfold add_lyrics_with; csimpl. rewrite !drop_0.
    pose proof (add_lyrics_part_twice s1 s2 part) as H.
    unfold add_lyrics_part in H; cbn [fst] in H. by rewrite H.
Qed.

(** ** Paths and page names *)

Lemma has_slash_cons c p : has_slash (String c p) = Ascii.eqb c "/" || has_slash p.
Proof.
  unfold has_slash. cbn [String.index String.prefix].
  destruct (ascii_dec "/" c) as [<-|Hne].
  - by destruct p.
  - rewrite (proj2 (Ascii.eqb_neq c "/")) by congruence. cbn [orb].
    by destruct (String.index 0 "/" p).
Qed.

Lemma has_slash_app a b : has_slash (a +:+ b) = has_slash a || has_slash b.
Proof.
  induction a as [|c a IH]; [done|].
  change (String c a +:+ b) with (String c (a +:+ b)).
  rewrite !has_slash_cons, IH. by rewrite orb_assoc.
Qed.

Lemma basename_slash_free p : has_slash p = false → basename p = p.
Proof.
  destruct p as [|c p]; [done|]. rewrite has_slash_cons.
  intros [Hc Hp]%orb_false_iff. cbn [basename]. by rewrite Hp, Hc.
Qed.

Lemma basename_after_slash d f :
  has_slash f = false → basename (d +:+ "/" +:+ f) = f.
Proof.
  intros Hf. induction d as [|c d IH].
  - change ("" +:+ "/" +:+ f) with (String "/" f). cbn [basename].
    rewrite Hf. by rewrite (proj2 (Ascii.eqb_eq "/" "/")).
  - change (String c d +:+ "/" +:+ f) with (String c (d +:+ "/" +:+ f)).
    cbn [basename]. rewrite has_slash_app.
    change ("/" +:+ f) with (String "/" f). rewrite has_slash_cons.
    rewrite (proj2 (Ascii.eqb_eq "/" "/")) by done. by rewrite orb_true_r.
Qed.

Lemma string_app_assoc (a b c : string) : (a +:+ b) +:+ c = a +:+ b +:+ c.
Proof.
  induction a as [|x a IH]; [done|].
  change (String x ((a +:+ b) +:+ c) = String x (a +:+ b +:+ c)). by rewrite IH.
Qed.

Lemma string_app_nil_r (a : string) : a +:+ "" = a.
Proof.
  induction a as [|x a IH]; [done|].
  change (String x (a +:+ "") = String x a). by rewrite IH.
Qed.

Lemma ends_with_slash_split d :
  ends_with_slash d = true → ∃ d', d = d' +:+ "/".
Proof.
  unfold ends_with_slash. induction d as [|c d IH]; [done|].
  destruct d as [|c' d].
  - simpl. intros ->%Ascii.eqb_eq. by exists ""%string.
  - intros H. destruct IH as [d' Hd'].
    + simpl in *. by rewrite Nat.sub_0_r in *.
    + exists (String c d'). rewrite Hd'. reflexivity.
Qed.

(** [os.path.basename] undoes [os.path.join] on a file name without a
    slash, whatever the directory. *)
Lemma basename_path_join d f :
  has_slash f = false → f ≠ ""%string → basename (path_join d f) = f.
Proof.
  intros Hf Hne. unfold path_join.
  assert (String.prefix "/" f = false) as ->.
  { destruct f as [|c f]; [done|]. rewrite has_slash_cons in Hf.
    apply orb_false_iff in Hf as [Hc _]. cbn [String.prefix].
    destruct (ascii_dec "/" c) as [<-|]; [|done].
    by rewrite (proj2 (Ascii.eqb_eq "/" "/")) in Hc. }
  destruct ((String.length d =? 0)%nat || ends_with_slash d) eqn:Hd.
  - apply orb_true_iff in Hd as [Hd|Hd].
    + apply Nat.eqb_eq in Hd. destruct d; [|done]. simpl.
      by apply basename_slash_free.
    + apply ends_with_slash_split in Hd as [d' ->].
      rewrite string_app_assoc. by apply basename_after_slash.
  - by apply basename_after_slash.
Qed.

Lemma string_app_cons (x : ascii) (a b : string) :
  String x a +:+ b = String x (a +:+ b).
Proof. reflexivity. Qed.

Lemma digits_slash_free d : has_slash (NilEmpty.string_of_uint d) = false.
Proof.
  induction d; cbn [NilEmpty.string_of_uint]; rewrite ?has_slash_cons; done.
Qed.

Lemma digits_remove_png d tl :
  remove_png (NilEmpty.string_of_uint d +:+ tl)
  = NilEmpty.string_of_uint d +:+ remove_png tl.
Proof.
  induction d; cbn [NilEmpty.string_of_uint]; [done|..];
    rewrite !string_app_cons; cbn [remove_png]; by rewrite IHd.
Qed.

Lemma format_02d_slash_free n : has_slash (format_02d n) = false.
Proof.
  unfold format_02d. destruct (_ <? 2)%nat;
    rewrite ?has_slash_app, digits_slash_free; done.
Qed.

Lemma format_02d_remove_png n tl :
  remove_png (format_02d n +:+ tl) = format_02d n +:+ remove_png tl.
Proof.
  unfold format_02d. destruct (_ <? 2)%nat; [|apply digits_remove_png].
  change ("0" +:+ NilEmpty.string_of_uint (Nat.to_uint n))
    with (String "0" (NilEmpty.string_of_uint (Nat.to_uint n))).
  rewrite !string_app_cons. cbn [remove_png]. by rewrite digits_remove_png.
Qed.

(** The page number can be read back off its two-digit form. *)
Lemma format_02d_decode n :
  Nat.of_uint <$> NilEmpty.uint_of_string (format_02d n) = Some n.
Proof.
  unfold format_02d. destruct (_ <? 2)%nat.
  - change ("0" +:+ NilEmpty.string_of_uint (Nat.to_uint n))
      with (String "0" (NilEmpty.string_of_uint (Nat.to_uint n))).
    cbn [NilEmpty.uint_of_string]. rewrite NilEmpty.usu. simpl. f_equal.
    change (Nat.of_uint (Decimal.D0 (Nat.to_uint n))) with (Nat.of_uint (Nat.to_uint n)).
    apply Unsigned.of_to.
  - rewrite NilEmpty.usu. simpl. f_equal. apply Unsigned.of_to.
Qed.

Lemma format_02d_inj n1 n2 : format_02d n1 = format_02d n2 → n1 = n2.
Proof.
  intros H. pose proof (format_02d_decode n1) as H1.
  rewrite H, format_02d_decode in H1. by injection H1.
Qed.

Lemma page_file_slash_free i : has_slash (page_file i) = false.
Proof.
  unfold page_file. rewrite !has_slash_app, format_02d_slash_free. done.
Qed.

Lemma page_file_not_empty i : page_file i ≠ ""%string.
Proof. done. Qed.

Lemma page_file_directory i :
  remove_png (page_file i) = ("page_" +:+ format_02d (i + 1))%string.
Proof.
  unfold page_file.
  change (remove_png ("page_" +:+ format_02d (i + 1) +:+ ".png"))
    with ("page_" +:+ remove_png (format_02d (i + 1) +:+ ".png")).
  rewrite format_02d_remove_png.
  change (remove_png ".png") with ""%string. by rewrite string_app_nil_r.
Qed.

Lemma page_file_inj i j : page_file i = page_file j → i = j.
Proof.
  intros H. apply (f_equal remove_png) in H. rewrite !page_file_directory in H.
  apply String.app_inj, format_02d_inj in H. lia.
Qed.

Lemma path_join_page_inj d i j :
  path_join d (page_file i) = path_join d (page_file j) → i = j.
Proof.
  intros H. apply (f_equal basename) in H.
  rewrite !basename_path_join in H
    by (apply page_file_slash_free || apply page_file_not_empty).
  by apply page_file_inj.
Qed.

Lemma page_directory_inj d i j :
  path_join d ("page_" +:+ format_02d (i + 1))
  = path_join d ("page_" +:+ format_02d (j + 1)) → i = j.
Proof.
  intros H. apply (f_equal basename) in H.
  rewrite !basename_path_join in H
    by (rewrite ?has_slash_app, ?format_02d_slash_free; done).
  apply String.app_inj, format_02d_inj in H. lia.
Qed.

(** ** The rasterizing stage *)

Section Rasterizer.

Context {World Image : Type}.
Variable os_makedirs : string → World → World.
Variable convert_from_path : string → World → list Image.
Variable image_save : Image → string → World → World.

Lemma pdf_to_images_paths pdf_path output_dir w :
  (pdf_to_images os_makedirs convert_from_path image_save pdf_path output_dir w).1
  = imap (λ i _, path_join output_dir (page_file i))
      (convert_from_path pdf_path (os_makedirs output_dir w)).
Proof.
  unfold pdf_to_images. cbv zeta.
  generalize (os_makedirs output_dir w) at 2. intros w0.
  induction (convert_from_path _ _) as [|image images IH] using rev_ind; [done|].
  rewrite !imap_app, fold_left_app. simpl. by rewrite IH, Nat.add_0_r.
Qed.

(** X7.  [pdf_to_images] returns one path per page of the PDF, in page order:
    the path of page [i + 1] is [page_NN.png] in the output directory, [NN]
    being [i + 1] in at least two digits, and no two pages share a path. *)
Theorem pdf_to_images_one_path_per_page (pdf_path output_dir : string) (w : World) :
  let paths :=
    (pdf_to_images os_makedirs convert_from_path image_save pdf_path output_dir w).1 in
  length paths = length (convert_from_path pdf_path (os_makedirs output_dir w))
  ∧ NoDup paths
  ∧ ∀ i path,
      paths !! i = Some path →
      path = path_join output_dir (page_file i)
      ∧ basename path = page_file i
      ∧ Nat.of_uint <$> NilEmpty.uint_of_string (format_02d (i + 1))
        = Some (i + 1)%nat.
Proof.
  cbv zeta. rewrite pdf_to_images_paths. split; [apply length_imap|]. split.
  - apply NoDup_alt. intros i j path.
    rewrite !list_lookup_imap.
    destruct (_ !! i), (_ !! j); simpl; try done.
    intros [= <-] [= H]. symmetry. by eapply path_join_page_inj.
  - intros i path. rewrite list_lookup_imap.
    destruct (_ !! i); simpl; [|done]. intros [= <-]. split; [done|].
    split; [|apply format_02d_decode].
    apply basename_path_join;
      [apply page_file_slash_free | apply page_file_not_empty].
Qed.

(** X8.  The recogniser is given a directory of its own for every page: for the
    image of page [i + 1] as [pdf_to_images] named it, the command run is
    [oemer] on that image with output directory [page_NN] under the MusicXML
    directory, and the directories of two pages differ. *)
Theorem recognition_directory_per_page
    (pdf_path images_dir musicxml_dir : string) (w : World) :
  let paths :=
    (pdf_to_images os_makedirs convert_from_path image_save pdf_path images_dir w).1 in
  (∀ i path,
     paths !! i = Some path →
     oemer_command musicxml_dir path
     = ["oemer"; path; "-o";
        path_join musicxml_dir ("page_" +:+ format_02d (i + 1))]%string)
  ∧ NoDup ((λ path, path_join musicxml_dir (remove_png (basename path))) <$> paths).
Proof.
  cbv zeta. rewrite pdf_to_images_paths.
  assert (∀ i, remove_png (basename (path_join images_dir (page_file i)))
               = ("page_" +:+ format_02d (i + 1))%string) as Hdir.
  { intros i. rewrite basename_path_join
      by (apply page_file_slash_free || apply page_file_not_empty).
    apply page_file_directory. }
  split.
  - intros i path. rewrite list_lookup_imap.
    destruct (_ !! i); simpl; [|done]. intros [= <-].
    unfold oemer_command. by rewrite Hdir.
  - apply NoDup_alt. intros i j dir.
    rewrite !list_lookup_fmap, !list_lookup_imap.
    destruct (_ !! i), (_ !! j); simpl; try done.
    rewrite !Hdir. intros [= <-] [= H]. symmetry. by eapply page_directory_inj.
Qed.

End Rasterizer.

(** ** More on the recognition stage *)

Lemma insert_sorted_perm x l : insert_sorted x l ≡ₚ x :: l.
Proof.
  induction l as [|y l IH]; simpl; [done|].
  destruct (String.leb x y); [done|]. rewrite IH. apply Permutation_swap.
Qed.

Lemma sorted_perm l : sorted l ≡ₚ l.
Proof.
  induction l as [|x l IH]; simpl; [done|].
  rewrite insert_sorted_perm. by rewrite IH.
Qed.

Lemma insert_sorted_Sorted x l :
  Sorted String.le l → Sorted String.le (insert_sorted x l).
Proof.
  induction 1 as [|y l Hs IH Hhd]; simpl.
  - by repeat constructor.
  - destruct (String.leb x y) eqn:Hxy.
    + constructor; [by constructor|]. constructor. unfold String.le. by rewrite Hxy.
    + constructor; [done|].
      assert (String.le y x) as Hyx.
      { destruct (String.leb_total x y) as [H|H]; [congruence|].
        unfold String.le. by rewrite H. }
      destruct l as [|z l]; simpl in *; [by constructor|].
      destruct (String.leb x z); constructor; [done|].
      by inversion Hhd.
Qed.

Lemma sorted_Sorted l : Sorted String.le (sorted l).
Proof.
  induction l as [|x l IH]; simpl; [constructor|]. by apply insert_sorted_Sorted.
Qed.

Section RecognitionMore.

Context {World : Type}.
Variable run_command : list string → Z → World → RunOutcome * World.
Variable glob_glob : string → World → list string.
Variable os_makedirs : string → World → World.

Lemma ocr_pages_error output_dir imgs :
  ∀ xml_files env e,
    (ocr_pages run_command glob_glob os_makedirs output_dir imgs xml_files env).1
    = inl e →
    ∃ n img so se w w',
      imgs !! n = Some img
      ∧ run_command (oemer_command output_dir img) 600 w = (TimedOut so se, w')
      ∧ e = TimeoutExpired (oemer_command output_dir img) 600 so se
      ∧ calls (ocr_pages run_command glob_glob os_makedirs output_dir imgs
                 xml_files env).2
        = calls env ++ (oemer_command output_dir <$> take (S n) imgs).
Proof.
  induction imgs as [|img imgs IH]; intros xml_files env e; [done|].
  cbn [ocr_pages]. unfold subprocess_run. cbn [world calls].
  destruct (run_command _ 600 _) as [[rc so se|so se] w'] eqn:Hrun; cbv beta iota.
  - intros He. destruct (IH _ _ _ He) as (n & img' & so' & se' & w1 & w2 & Hn & Hr & -> & Hc).
    exists (S n), img', so', se', w1, w2. split; [done|]. split; [done|].
    split; [done|]. rewrite Hc. cbn [calls take fmap list_fmap].
    by rewrite <- app_assoc.
  - simpl. intros [= <-]. eexists 0%nat, img, so, se, _, w'.
    split; [done|]. split; [exact Hrun|]. done.
Qed.

Lemma ocr_pages_files output_dir imgs :
  ∀ xml_files env xs,
    (ocr_pages run_command glob_glob os_makedirs output_dir imgs xml_files env).1
    = inr xs →
    ∃ found,
      xs = xml_files ++ found
      ∧ (length found ≤ length imgs)%nat
      ∧ ∀ f, f ∈ found →
             ∃ img w, img ∈ imgs
                      ∧ head (glob_glob (page_pattern output_dir img) w) = Some f.
Proof.
  induction imgs as [|img imgs IH]; intros xml_files env xs.
  - simpl. intros [= <-]. exists []. rewrite app_nil_r. split; [done|].
    split; [done|]. by intros f ?%elem_of_nil.
  - cbn [ocr_pages]. unfold subprocess_run. cbn [world calls].
    destruct (run_command _ 600 _) as [[rc so se|so se] w']; cbv beta iota; [|done].
    cbn [world].
    destruct (glob_glob _ w') as [|f0 fs] eqn:Hglob; intros Hxs;
      destruct (IH _ _ _ Hxs) as (found & -> & Hlen & Hfrom).
    + exists found. split; [done|]. split; [simpl; lia|].
      intros f Hf. destruct (Hfrom f Hf) as (img' & w & Hin & Hhd).
      exists img', w. split; [by right|done].
    + exists (f0 :: found). split; [by rewrite <- app_assoc|].
      split; [simpl; lia|].
      intros f [->|Hf]%elem_of_cons.
      * exists img, w'. split; [by left|]. unfold page_pattern. by rewrite Hglob.
      * destruct (Hfrom f Hf) as (img' & w & Hin & Hhd).
        exists img', w. split; [by right|done].
Qed.

(** X9.  An error of the recognition stage comes from a recogniser run that
    is not over after 600 seconds: the error raised is that run's timeout,
    it ends the stage at once, and the pages after it are never recognised.
    The exit status of a run that ends does not matter: when every run ends,
    a list of files comes back. *)
Theorem ocr_stops_at_first_timeout
    (image_paths : list string) (output_dir : string) (env : Env) :
  let r := ocr_images_to_musicxml run_command glob_glob os_makedirs
             image_paths output_dir env in
  (∀ e, r.1 = inl e →
        ∃ n img so se w w',
          drop 1 image_paths !! n = Some img
          ∧ run_command (oemer_command output_dir img) 600 w = (TimedOut so se, w')
          ∧ e = TimeoutExpired (oemer_command output_dir img) 600 so se
          ∧ calls r.2
            = calls env ++ (oemer_command output_dir <$> take (S n) (drop 1 image_paths)))
  ∧ ((∀ cmd t w, ∃ rc so se w',
        run_command cmd t w = (CompletedProcess rc so se, w')) →
     ∃ xs, r.1 = inr xs).
Proof.
  cbv zeta. unfold ocr_images_to_musicxml.
  set (env0 := mkEnv (os_makedirs output_dir (world env)) (calls env)).
  pose proof (ocr_pages_error output_dir (drop 1 image_paths) [] env0) as Herr.
  destruct (ocr_pages _ _ _ _ _ _ env0) as [[e|xs] env'] eqn:Hp; simpl in *.
  - split.
    + intros e' [= <-]. exact (Herr e eq_refl).
    + intros Hall. destruct (Herr e eq_refl) as (n & img & so & se & w & w' & _ & Hr & _).
      destruct (Hall (oemer_command output_dir img) 600 w) as (rc & so' & se' & w'' & Hc).
      congruence.
  - split; [done|]. intros _. by eexists.
Qed.

(** X10.  When the recognition stage returns, its list is in ascending order of
    the file names as strings, it has at most one file for each image after
    the first, and every file in it is the first one found under the
    directory of such an image. *)
Theorem ocr_result_sorted_from_pages
    (image_paths : list string) (output_dir : string) (env : Env)
    (xs : list string) :
  (ocr_images_to_musicxml run_command glob_glob os_makedirs
     image_paths output_dir env).1 = inr xs →
  Sorted String.le xs
  ∧ (length xs ≤ length image_paths - 1)%nat
  ∧ ∀ f, f ∈ xs →
         ∃ img w, img ∈ drop 1 image_paths
                  ∧ head (glob_glob (page_pattern output_dir img) w) = Some f.
Proof.
  unfold ocr_images_to_musicxml.
  set (env0 := mkEnv (os_makedirs output_dir (world env)) (calls env)).
  pose proof (ocr_pages_files output_dir (drop 1 image_paths) [] env0) as Hfiles.
  destruct (ocr_pages _ _ _ _ _ _ env0) as [[e|ys] env']; simpl; [done|].
  intros [= <-]. destruct (Hfiles ys eq_refl) as (found & -> & Hlen & Hfrom).
  simpl. split; [apply sorted_Sorted|]. split.
  - rewrite sorted_perm. rewrite length_drop in Hlen. lia.
  - intros f Hf. rewrite sorted_perm in Hf. by apply Hfrom.
Qed.

End RecognitionMore.

Lemma ocr_stops_at_first_timeout_witness :
  let imgs := ["img/page_01.png"; "img/page_02.png"; "img/page_03.png";
               "img/page_04.png"]%string in
  let r := ocr_images_to_musicxml stuck_on_page_3 one_file_found (λ _ w, w)
             imgs "xml" (mkEnv tt []) in
  r.1 = inl (TimeoutExpired ["oemer"; "img/page_03.png"; "-o"; "xml/page_03"]%string
               600 "" "")
  ∧ calls r.2 = [ ["oemer"; "img/page_02.png"; "-o"; "xml/page_02"];
                  ["oemer"; "img/page_03.png"; "-o"; "xml/page_03"] ]%string
  ∧ ∃ xs, (ocr_images_to_musicxml always_status_1 one_file_found (λ _ w, w)
             imgs "xml" (mkEnv tt [])).1 = inr xs.
Proof.
  intros imgs r. split; [reflexivity|]. split; [reflexivity|].
  apply (proj2 (ocr_stops_at_first_timeout always_status_1 one_file_found
                  (λ _ w, w) imgs "xml" (mkEnv tt []))).
  intros cmd t w. by exists 1, ""%string, ""%string, w.
Defined.

Lemma ocr_result_sorted_from_pages_witness :
  let imgs := ["img/page_01.png"; "img/page_03.png"; "img/page_02.png"]%string in
  let xs := ["xml/page_02/*.musicxml"; "xml/page_03/*.musicxml"]%string in
  (ocr_images_to_musicxml always_status_1 one_file_found (λ _ w, w)
     imgs "xml" (mkEnv tt [])).1 = inr xs
  ∧ Sorted String.le xs ∧ (length xs ≤ length imgs - 1)%nat.
Proof.
  intros imgs xs. split; [reflexivity|].
  destruct (ocr_result_sorted_from_pages always_status_1 one_file_found
              (λ _ w, w) imgs "xml" (mkEnv tt []) xs eq_refl) as (Hs & Hl & _).
  by split.
Defined.

(** ** The two transforms one after the other *)

(** X11.  Transposing first does not move the lyrics: [add_lyrics] puts the same
    lyrics on the notes of the first part, read in order, whether it is run
    on the score [remove_key_change] has produced or on the score as it
    was. *)
Theorem lyrics_land_alike_after_transform
    (syllables : list string) (part : list Measure) (rest : list (list Measure)) :
  let transformed := (remove_key_change (part :: rest)).1 in
  ∃ sung_transformed sung rest1 rest2,
    (add_lyrics_with syllables transformed).1 = sung_transformed :: rest1
    ∧ (add_lyrics_with syllables (part :: rest)).1 = sung :: rest2
    ∧ lyric <$> notes_in_order sung_transformed = lyric <$> notes_in_order sung.
Proof.
  cbv zeta.
  exists (add_lyrics_part syllables (process_measures initial_state part).1).1,
         (add_lyrics_part syllables part).1.
  eexists _, _. split.
  { unfold remove_key_change, add_lyrics_with, process_part. csimpl.
    by destruct (process_measures initial_state part). }
  split; [reflexivity|].
  rewrite (proj1 (add_lyrics_part_in_order syllables _)).
  rewrite (proj1 (add_lyrics_part_in_order syllables part)).
  rewrite process_measures_keeps_lyrics.
  rewrite <- (length_fmap lyric (notes_in_order (process_measures _ part).1)).
  rewrite process_measures_keeps_lyrics. by rewrite length_fmap.
Qed.

(** ** The whole run *)

Section Run.

Context {World Image : Type}.
Variable run_command : list string → Z → World → RunOutcome * World.
Variable glob_glob : string → World → list string.
Variable os_makedirs : string → World → World.
Variable path_mkdir : string → World → World.
Variable path_exists : string → World → bool.
Variable convert_from_path : string → World → list Image.
Variable image_save : Image → string → World → World.
Variable parse_file : string → World → list (list Measure).
Variable write_file : list (list Measure) → string → World → World.

(** X12.  [main] stops with exit status 1, having run no command and touched
    nothing, when it is given fewer than two arguments or when the input
    file does not exist. *)
Theorem main_rejects_bad_arguments (argv : list string) (env : Env) :
  (length argv < 3)%nat
  ∨ (∃ input_pdf, argv !! 1%nat = Some input_pdf
                  ∧ path_exists input_pdf (world env) = false) →
  main run_command glob_glob os_makedirs path_mkdir path_exists
    convert_from_path image_save parse_file write_file argv env
  = (SystemExit 1, env).
Proof.
  unfold main. intros Hbad.
  destruct (length argv <? 3)%nat eqn:Hlen; [done|].
  apply Nat.ltb_ge in Hlen. destruct Hbad as [?|(input_pdf & Hin & Hex)]; [lia|].
  rewrite Hin. destruct (argv !! 2%nat); [|done]. by rewrite Hex.
Qed.

Lemma ocr_of_no_pages (image_paths : list string) output_dir (env : Env) :
  (length image_paths ≤ 1)%nat →
  ocr_images_to_musicxml run_command glob_glob os_makedirs image_paths output_dir env
  = (inr [], mkEnv (os_makedirs output_dir (world env)) (calls env)).
Proof. destruct image_paths as [|? [|]]; simpl; [done|done|lia]. Qed.

(** X13.  A PDF of one page, or of none, cannot be processed: the first page is
    skipped, nothing is left to combine, and [main] ends with the
    [ValueError] of the combining stage, having run neither the recogniser
    nor the renderer. *)
Theorem main_needs_two_pages
    (argv : list string) (env : Env) (input_pdf output_pdf : string) :
  argv !! 1%nat = Some input_pdf →
  argv !! 2%nat = Some output_pdf →
  path_exists input_pdf (world env) = true →
  (length (convert_from_path input_pdf
             (os_makedirs (path_join work_dir "images")
                (path_mkdir work_dir (world env)))) ≤ 1)%nat →
  (main run_command glob_glob os_makedirs path_mkdir path_exists
     convert_from_path image_save parse_file write_file argv env).1
  = Raised (ValueError "No MusicXML files to combine!")
  ∧ calls (main run_command glob_glob os_makedirs path_mkdir path_exists
             convert_from_path image_save parse_file write_file argv env).2
    = calls env.
Proof.
  intros Hin Hout Hex Hpages. unfold main.
  assert ((length argv <? 3)%nat = false) as ->
    by (apply Nat.ltb_ge; apply lookup_lt_Some in Hout; lia).
  rewrite Hin, Hout, Hex. cbn [negb]. unfold prepare_score.
  pose proof (pdf_to_images_paths os_makedirs convert_from_path image_save
                input_pdf (path_join work_dir "images")
                (path_mkdir work_dir (world env))) as Hpaths.
  destruct (pdf_to_images _ _ _ _ _ _) as [image_paths w1]. cbn [fst] in Hpaths.
  rewrite ocr_of_no_pages by (rewrite Hpaths, length_imap; exact Hpages).
  done.
Qed.

(** X14.  A run of [main] that comes back has run these commands and no other:
    the recogniser on every page image but the first, in page order, and
    then the renderer once, from [final.musicxml] to the output path
    given. *)
Theorem main_commands_of_a_good_run (argv : list string) (env : Env) :
  (main run_command glob_glob os_makedirs path_mkdir path_exists
     convert_from_path image_save parse_file write_file argv env).1 = Returned →
  ∃ input_pdf output_pdf,
    argv !! 1%nat = Some input_pdf ∧ argv !! 2%nat = Some output_pdf
    ∧ calls (main run_command glob_glob os_makedirs path_mkdir path_exists
               convert_from_path image_save parse_file write_file argv env).2
      = calls env
        ++ (oemer_command (path_join work_dir "musicxml")
              <$> drop 1 (pdf_to_images os_makedirs convert_from_path image_save
                            input_pdf (path_join work_dir "images")
                            (path_mkdir work_dir (world env))).1)
        ++ [musescore_command (path_join work_dir "final.musicxml") output_pdf].
Proof.
  unfold main.
  destruct (length argv <? 3)%nat; [done|].
  destruct (argv !! 1%nat) as [input_pdf|]; [|by destruct (argv !! 2%nat)].
  destruct (argv !! 2%nat) as [output_pdf|]; [|done].
  destruct (negb _); [done|]. unfold prepare_score.
  destruct (pdf_to_images _ _ _ _ _ _) as [image_paths w1] eqn:Himg.
  unfold ocr_images_to_musicxml.
  match goal with |- context [ocr_pages _ _ _ ?d ?l ?x ?e] =>
    destruct (ocr_pages_calls run_command glob_glob os_makedirs d l x e)
      as (n & Hc & Hn);
    destruct (ocr_pages run_command glob_glob os_makedirs d l x e)
      as [[e'|xml_files] env2] end; [done|].
  cbn [fst snd calls] in Hc, Hn. rewrite (Hn _ eq_refl), firstn_all in Hc.
  unfold combine_musicxml_pages_file.
  destruct (combine_musicxml_pages _ _) as [e'|combined]; [done|].
  unfold remove_key_change_file, add_lyrics_file, export_to_pdf, subprocess_run.
  cbn [world calls].
  destruct (run_command _ 120 _) as [[rc so se|so se] w6]; [|done].
  destruct (rc =? 0); [|done]. intros _.
  exists input_pdf, output_pdf. split; [done|]. split; [done|].
  rewrite Himg. cbn [fst snd calls]. by rewrite Hc, <- app_assoc.
Qed.

Section RoundTrip.

(** A file holds the score last written to it. *)
Hypothesis parse_write :
  ∀ score path w, parse_file path (write_file score path w) = score.

(** X15.  When the first five steps of [main] go through, [final.musicxml] holds
    the combined score of the files the recognition stage returned for the
    page images, first with its key change removed and then with the lyrics
    added. *)
Theorem prepared_score_content (input_pdf final_xml : string) (env env' : Env) :
  prepare_score run_command glob_glob os_makedirs path_mkdir
    convert_from_path image_save parse_file write_file input_pdf env
  = (inr final_xml, env') →
  final_xml = path_join work_dir "final.musicxml"
  ∧ ∃ image_paths w1 xml_files env2 combined,
      pdf_to_images os_makedirs convert_from_path image_save input_pdf
        (path_join work_dir "images") (path_mkdir work_dir (world env))
      = (image_paths, w1)
      ∧ ocr_images_to_musicxml run_command glob_glob os_makedirs image_paths
          (path_join work_dir "musicxml") (mkEnv w1 (calls env))
        = (inr xml_files, env2)
      ∧ combine_musicxml_pages (λ f, parse_file f (world env2)) xml_files
        = inr combined
      ∧ parse_file final_xml (world env')
        = (add_lyrics (remove_key_change combined).1).1.
Proof.
  unfold prepare_score.
  destruct (pdf_to_images _ _ _ _ _ _) as [image_paths w1] eqn:Himg.
  destruct (ocr_images_to_musicxml _ _ _ _ _ _) as [[e|xml_files] env2] eqn:Hocr;
    [done|].
  unfold combine_musicxml_pages_file.
  destruct (combine_musicxml_pages _ xml_files) as [e|combined] eqn:Hc; [done|].
  unfold remove_key_change_file, add_lyrics_file. cbv zeta.
  intros [= <- <-]. split; [done|].
  exists image_paths, w1, xml_files, env2, combined.
  split; [done|]. split; [exact Hocr|]. split; [exact Hc|].
  cbn [world]. by rewrite !parse_write.
Qed.

End RoundTrip.

End Run.

Lemma main_rejects_bad_arguments_witness :
  let env := mkEnv every_file_three_measures [] in
  main always_status_0 one_file_listed no_directory no_directory only_in_pdf
    two_pages no_image_file memory_parse memory_write
    ["remove_key_change_complete.py"; "missing.pdf"; "out.pdf"]%string env
  = (SystemExit 1, env).
Proof.
  intros env. apply main_rejects_bad_arguments. right.
  by exists "missing.pdf"%string.
Defined.

Lemma main_needs_two_pages_witness :
  let env := mkEnv every_file_three_measures [] in
  let r := main always_status_0 one_file_listed no_directory no_directory
             only_in_pdf one_page no_image_file memory_parse memory_write
             ["remove_key_change_complete.py"; "in.pdf"; "out.pdf"]%string env in
  r.1 = Raised (ValueError "No MusicXML files to combine!") ∧ calls r.2 = [].
Proof.
  intros env r.
  apply (main_needs_two_pages always_status_0 one_file_listed no_directory
           no_directory only_in_pdf one_page no_image_file memory_parse
           memory_write _ env "in.pdf" "out.pdf");
    [reflexivity | reflexivity | reflexivity | simpl; lia].
Defined.

Lemma main_commands_of_a_good_run_witness :
  let env := mkEnv every_file_three_measures [] in
  let r := main always_status_0 one_file_listed no_directory no_directory
             only_in_pdf two_pages no_image_file memory_parse memory_write
             ["remove_key_change_complete.py"; "in.pdf"; "out.pdf"]%string env in
  r.1 = Returned
  ∧ calls r.2
    = [ ["oemer"; "/tmp/sheet_music_work/images/page_02.png"; "-o";
         "/tmp/sheet_music_work/musicxml/page_02"];
        ["musescore3"; "/tmp/sheet_music_work/final.musicxml"; "-o"; "out.pdf"]
      ]%string.
Proof.
  intros env r. split; [reflexivity|].
  destruct (main_commands_of_a_good_run always_status_0 one_file_listed
              no_directory no_directory only_in_pdf two_pages no_image_file
              memory_parse memory_write
              ["remove_key_change_complete.py"; "in.pdf"; "out.pdf"]%string env
              eq_refl)
    as (input_pdf & output_pdf & Hin & Hout & Hcalls).
  injection Hin as <-. injection Hout as <-. exact Hcalls.
Defined.

Lemma memory_parse_write score path w :
  memory_parse path (memory_write score path w) = score.
Proof. unfold memory_parse, memory_write. by rewrite String.eqb_refl. Qed.

Lemma prepared_score_content_witness :
  let env := mkEnv every_file_three_measures [] in
  let r := prepare_score always_status_0 one_file_listed no_directory no_directory
             two_pages no_image_file memory_parse memory_write "in.pdf" env in
  r.1 = inr "/tmp/sheet_music_work/final.musicxml"%string
  ∧ ∃ image_paths w1 xml_files env2 combined,
      pdf_to_images no_directory two_pages no_image_file "in.pdf"
        (path_join work_dir "images") (no_directory work_dir (world env))
      = (image_paths, w1)
      ∧ ocr_images_to_musicxml always_status_0 one_file_listed no_directory
          image_paths (path_join work_dir "musicxml") (mkEnv w1 (calls env))
        = (inr xml_files, env2)
      ∧ combine_musicxml_pages (λ f, memory_parse f (world env2)) xml_files
        = inr combined
      ∧ memory_parse "/tmp/sheet_music_work/final.musicxml" (world r.2)
        = (add_lyrics (remove_key_change combined).1).1.
Proof.
  intros env r. split; [reflexivity|].
  apply (prepared_score_content always_status_0 one_file_listed no_directory
           no_directory two_pages no_image_file memory_parse memory_write
           memory_parse_write "in.pdf" "/tmp/sheet_music_work/final.musicxml"
           env r.2).
  by apply injective_projections.
Defined.

(** ** [transpose_key_change] *)

Section TransposeKeyChangeProperties.

Variable transpose_key_signature : Z → Z.

Lemma transpose_measures_from_spec start count ms :
  transpose_measures_from transpose_key_signature start count ms
  = ((λ m, if bool_decide (start ≤ number m) then transposed_measure transpose_key_signature m else m) <$> ms,
     Nat.add count
       (length (List.filter (λ m, bool_decide (start ≤ number m)) ms))).
Proof.
  revert count; induction ms as [|m ms IH]; intros count; csimpl.
  - by rewrite Nat.add_0_r.
  - destruct (bool_decide (start ≤ number m)); rewrite IH; csimpl;
      do 2 f_equal; lia.
Qed.

Lemma measure_pitches_key_signatures m :
  measure_pitches (transpose_key_signatures transpose_key_signature m)
  = measure_pitches m.
Proof.
  unfold measure_pitches, transpose_key_signatures; cbn [elements].
  induction (elements m) as [|[o e] es IH]; csimpl; [done|].
  rewrite IH. by destruct e.
Qed.

Lemma other_elements_key_signatures m :
  other_elements (transpose_key_signatures transpose_key_signature m)
  = other_elements m.
Proof.
  unfold other_elements, transpose_key_signatures; cbn [elements].
  induction (elements m) as [|[o e] es IH]; csimpl; [done|].
  rewrite IH. by destruct e.
Qed.

Lemma key_signatures_key_signatures m :
  key_signatures (transpose_key_signatures transpose_key_signature m)
  = prod_map id transpose_key_signature <$> key_signatures m.
Proof.
  unfold key_signatures, transpose_key_signatures; cbn [elements].
  induction (elements m) as [|[o e] es IH]; csimpl; [done|].
  rewrite IH. by destruct e.
Qed.

Lemma transpose_key_change_lookup score start p part :
  score !! p = Some part →
  (transpose_key_change transpose_key_signature score start).1 !! p
  = Some ((λ m, if bool_decide (start ≤ number m) then transposed_measure transpose_key_signature m else m)
            <$> part)
  ∧ (transpose_key_change transpose_key_signature score start).2 !! p
    = Some (length part,
            length (List.filter (λ m, bool_decide (start ≤ number m)) part)).
Proof.
  intros Hp. unfold transpose_key_change; cbn [fst snd].
  rewrite !list_lookup_fmap, Hp. cbn [fmap option_fmap option_map].
  by rewrite transpose_measures_from_spec.
Qed.

(** X16.  [transpose_key_change] picks its measures by their number, not by their
    place: a measure numbered below [start_measure] is left as it was
    wherever it stands, a measure numbered [start_measure] or more has
    every pitch moved one semitone down, its key signatures transposed, and
    everything else in it kept in order; the count printed is the number of
    measures so numbered. *)
Theorem transpose_key_change_by_number
    (score : list (list Measure)) (start_measure : Z) (p : nat)
    (part : list Measure) :
  score !! p = Some part →
  ∃ part',
    (transpose_key_change transpose_key_signature score start_measure).1 !! p
    = Some part'
    ∧ (transpose_key_change transpose_key_signature score start_measure).2 !! p
      = Some (length part,
              length (List.filter (λ m, bool_decide (start_measure ≤ number m))
                        part))
    ∧ ∀ j m,
        part !! j = Some m →
        ∃ m',
          part' !! j = Some m'
          ∧ (number m < start_measure → m' = m)
          ∧ (start_measure ≤ number m →
             Pitch.semitones <$> measure_pitches m'
             = (λ x, x + semitone_shift) <$> (Pitch.semitones <$> measure_pitches m)
             ∧ other_elements m'
               = prod_map id transpose_element <$> other_elements m
             ∧ key_signatures m'
               = prod_map id transpose_key_signature <$> key_signatures m).
Proof.
  intros Hp. destruct (transpose_key_change_lookup _ start_measure _ _ Hp) as [H1 H2].
  eexists. split; [exact H1|]. split; [exact H2|].
  intros j m Hj. rewrite list_lookup_fmap, Hj. eexists. split; [reflexivity|].
  case_bool_decide as Hn; split; try lia; [|done].
  intros _. unfold transposed_measure. split; [|split].
  - rewrite measure_pitches_key_signatures, measure_pitches_transpose.
    rewrite <- !list_fmap_compose. apply list_fmap_ext.
    intros i x _. simpl. apply semitones_transpose_pitch.
  - by rewrite other_elements_key_signatures, other_elements_transpose.
  - by rewrite key_signatures_key_signatures, key_signatures_transpose.
Qed.

Lemma filter_bool_all {A} (f : A → bool) (l : list A) :
  Forall (λ x, f x = true) l → List.filter f l = l.
Proof. induction 1 as [|x l Hx _ IH]; simpl; [done|]. by rewrite Hx, IH. Qed.

Lemma filter_bool_none {A} (f : A → bool) (l : list A) :
  Forall (λ x, f x = false) l → List.filter f l = [].
Proof. induction 1 as [|x l Hx _ IH]; simpl; [done|]. by rewrite Hx. Qed.

(** X17.  Where the measures numbered [start_measure] or more are exactly those
    from the first qualifying key signature on, the two scripts do the same
    to everything but the key signatures: measure by measure they leave the
    same notes, chords, rests and other elements, and they count the same
    number of transposed measures. *)
Theorem scripts_agree_outside_key_signatures
    (score : list (list Measure)) (start_measure : Z) (p t : nat)
    (part : list Measure) :
  score !! p = Some part →
  first_trigger part = Some t →
  (∀ j m, part !! j = Some m → (start_measure ≤ number m ↔ (t ≤ j)%nat)) →
  ∃ removed transposed replaced n,
    (remove_key_change score).1 !! p = Some removed
    ∧ (transpose_key_change transpose_key_signature score start_measure).1 !! p
      = Some transposed
    ∧ other_elements <$> removed = other_elements <$> transposed
    ∧ (remove_key_change score).2 !! p = Some (replaced, n)
    ∧ (transpose_key_change transpose_key_signature score start_measure).2 !! p
      = Some (length part, n).
Proof.
  intros Hp Ht Hnum.
  destruct (remove_key_change_lookup _ _ _ Hp) as [Hr1 Hr2].
  destruct (transpose_key_change_lookup _ start_measure _ _ Hp) as [Ht1 Ht2].
  eexists _, _, _, _. split; [exact Hr1|]. split; [exact Ht1|]. split; [|split].
  - apply list_eq. intros j. rewrite !list_lookup_fmap.
    destruct (part !! j) as [m|] eqn:Hj.
    + rewrite (process_measures_lookup_modulated _ _ _ Hj). simpl.
      unfold modulated. rewrite (existsb_triggers_take _ _ j Ht). f_equal.
      rewrite (bool_decide_ext _ _ (Hnum j m Hj)).
      case_bool_decide; [|done]. unfold transposed_measure.
      by rewrite other_elements_key_signatures, !other_elements_transpose,
           other_elements_replaced.
    + simpl. rewrite (proj2 (lookup_ge_None _ _)); [done|].
      rewrite process_measures_length. by apply lookup_ge_None.
  - exact Hr2.
  - rewrite Ht2. do 2 f_equal.
    rewrite transposed_from_first_trigger, Ht.
    rewrite <- (take_drop t part) at 1. rewrite List.filter_app.
    rewrite filter_bool_none, filter_bool_all;
      [simpl; by rewrite length_drop|..].
    + apply Forall_lookup. intros i m. rewrite lookup_drop. intros Hm.
      apply bool_decide_eq_true. apply (Hnum _ _ Hm). lia.
    + apply Forall_lookup. intros i m [Hm Hi]%lookup_take_Some.
      apply bool_decide_eq_false. rewrite (Hnum _ _ Hm). lia.
Qed.

End TransposeKeyChangeProperties.

Lemma transpose_key_change_by_number_witness :
  let out_of_order := [mkMeasure 21 [(0%Q, plain_note c4)];
                       mkMeasure 3 [(0%Q, plain_note c4)]] in
  ∃ part',
    (transpose_key_change (λ s, s + 5) [out_of_order] 20).1 !! 0%nat = Some part'
    ∧ part' = [mkMeasure 21 [(0%Q, plain_note (Pitch.mk Pitch.B 0 3))];
               mkMeasure 3 [(0%Q, plain_note c4)]]
    ∧ (transpose_key_change (λ s, s + 5) [out_of_order] 20).2 !! 0%nat
      = Some (2%nat, 1%nat).
Proof.
  intros out_of_order.
  destruct (transpose_key_change_by_number (λ s, s + 5) [out_of_order] 20 0
              out_of_order eq_refl) as (part' & Hp & Hc & _).
  exists part'. split; [exact Hp|]. split; [|exact Hc].
  vm_compute in Hp. by injection Hp as <-.
Defined.

Lemma scripts_agree_outside_key_signatures_witness :
  ∃ removed transposed replaced n,
    (remove_key_change [three_measures]).1 !! 0%nat = Some removed
    ∧ (transpose_key_change (λ s, s + 5) [three_measures] 2).1 !! 0%nat
      = Some transposed
    ∧ other_elements <$> removed = other_elements <$> transposed
    ∧ (remove_key_change [three_measures]).2 !! 0%nat = Some (replaced, n)
    ∧ (transpose_key_change (λ s, s + 5) [three_measures] 2).2 !! 0%nat
      = Some (length three_measures, n).
Proof.
  apply (scripts_agree_outside_key_signatures (λ s, s + 5) [three_measures] 2 0 1
           three_measures eq_refl eq_refl).
  intros [|[|[|j]]] m; simpl; intros [= <-]; simpl; lia.
Defined.

(** ** The order of the recognised pages *)

Lemma ends_with_slash_cons c s :
  ends_with_slash (String c s)
  = match s with
    | EmptyString => Ascii.eqb c "/"
    | _ => ends_with_slash s
    end.
Proof.
  unfold ends_with_slash. destruct s as [|c' s]; [done|].
  cbn [String.length]. by rewrite !Nat.sub_succ, !Nat.sub_0_r.
Qed.

Lemma ends_with_slash_app a b :
  b ≠ ""%string → ends_with_slash (a +:+ b) = ends_with_slash b.
Proof.
  intros Hb. induction a as [|c a IH]; [done|].
  rewrite string_app_cons, ends_with_slash_cons, IH.
  destruct a; [by destruct b|done].
Qed.

Lemma ends_with_slash_has_slash s : ends_with_slash s = true → has_slash s = true.
Proof.
  intros [d ->]%ends_with_slash_split. rewrite has_slash_app.
  by rewrite orb_true_r.
Qed.

Lemma format_02d_not_empty n : format_02d n ≠ ""%string.
Proof.
  unfold format_02d. destruct (_ <? 2)%nat eqn:Hl; [done|].
  apply Nat.ltb_ge in Hl. intros H. rewrite H in Hl. simpl in Hl. lia.
Qed.

Lemma path_join_prefix d x :
  String.prefix "/" x = false → path_join d x = joined_prefix d +:+ x.
Proof.
  intros Hx. unfold path_join, joined_prefix. rewrite Hx.
  destruct (_ || _); [done|]. by rewrite string_app_assoc.
Qed.

Lemma string_length_app a b :
  String.length (a +:+ b) = (String.length a + String.length b)%nat.
Proof.
  induction a as [|c a IH]; [done|].
  rewrite string_app_cons. simpl. by rewrite IH.
Qed.

Lemma page_result_eq d i name :
  String.prefix "/" name = false →
  page_result d i name
  = joined_prefix d +:+ "page_" +:+ format_02d (i + 1) +:+ "/" +:+ name.
Proof.
  intros Hn. unfold page_result.
  rewrite (path_join_prefix d) by done.
  unfold path_join. rewrite Hn.
  assert (ends_with_slash (joined_prefix d +:+ "page_" +:+ format_02d (i + 1))
          = false) as ->.
  { rewrite <- string_app_assoc.
    rewrite ends_with_slash_app by apply format_02d_not_empty.
    destruct (ends_with_slash _) eqn:He; [|done].
    apply ends_with_slash_has_slash in He.
    by rewrite format_02d_slash_free in He. }
  assert ((String.length (joined_prefix d +:+ "page_" +:+ format_02d (i + 1)) =? 0)%nat
          = false) as ->.
  { apply Nat.eqb_neq. rewrite !string_length_app. simpl. lia. }
  simpl. by rewrite !string_app_assoc.
Qed.

Lemma ascii_compare_refl c : Ascii.compare c c = Eq.
Proof. unfold Ascii.compare. apply N.compare_refl. Qed.

Lemma compare_app_same p a b :
  String.compare (p +:+ a) (p +:+ b) = String.compare a b.
Proof.
  induction p as [|c p IH]; [done|].
  rewrite !string_app_cons. simpl. by rewrite ascii_compare_refl.
Qed.

Lemma compare_app_lt a b x y :
  String.length a = String.length b →
  String.compare a b = Lt →
  String.compare (a +:+ x) (b +:+ y) = Lt.
Proof.
  revert b; induction a as [|c a IH]; intros [|c' b]; try done.
  rewrite !string_app_cons. simpl. intros [= Hl].
  destruct (Ascii.compare c c'); try done. by apply IH.
Qed.

(** Below 100 the two-digit forms have two characters and compare as the
    numbers do. *)
Lemma format_02d_lt a b :
  (a < b)%nat → (b < 100)%nat →
  String.length (format_02d a) = String.length (format_02d b)
  ∧ String.compare (format_02d a) (format_02d b) = Lt.
Proof.
  intros Hab Hb.
  assert (forallb (λ b, forallb (λ a,
            implb (a <? b)%nat
              ((String.length (format_02d a) =? String.length (format_02d b))%nat
               && match String.compare (format_02d a) (format_02d b) with
                  | Lt => true
                  | _ => false
                  end)) (seq 0 100)) (seq 0 100) = true) as Htable
    by (vm_compute; reflexivity).
  rewrite forallb_forall in Htable.
  specialize (Htable b). rewrite forallb_forall in Htable.
  assert (In b (seq 0 100)) as Hb' by (apply in_seq; lia).
  assert (In a (seq 0 100)) as Ha' by (apply in_seq; lia).
  specialize (Htable Hb' a Ha').
  rewrite (proj2 (Nat.ltb_lt a b) Hab) in Htable. simpl in Htable.
  apply andb_true_iff in Htable as [Hl Hc]. apply Nat.eqb_eq in Hl.
  split; [done|]. by destruct (String.compare _ _).
Qed.

Lemma page_result_le d i j n1 n2 :
  String.prefix "/" n1 = false → String.prefix "/" n2 = false →
  (i < j)%nat → (j < 99)%nat →
  String.le (page_result d i n1) (page_result d j n2).
Proof.
  intros H1 H2 Hij Hj. unfold String.le, String.leb.
  rewrite !page_result_eq by done.
  rewrite !compare_app_same.
  destruct (format_02d_lt (i + 1) (j + 1)) as [Hl Hc]; [lia|lia|].
  by rewrite (compare_app_lt _ _ _ _ Hl Hc).
Qed.

Lemma sorted_of_Sorted l : Sorted String.le l → sorted l = l.
Proof.
  induction 1 as [|x l _ IH Hhd]; [done|]. simpl. rewrite IH.
  destruct Hhd as [|y l Hxy]; [done|]. simpl.
  unfold String.le in Hxy. by destruct (String.leb x y).
Qed.

(** X18.  [sorted(xml_files)] keeps the pages in page order as long as the page
    numbers stay below 100: files found for pages of ascending numbers are
    returned in that order.  From page 100 on it does not: a file of page
    100 comes before a file of page 99. *)
Theorem sorted_keeps_page_order_below_100
    (output_dir : string) (pages : list (nat * string)) :
  Sorted (λ a b, (a.1 < b.1)%nat) pages →
  Forall (λ a, (a.1 < 99)%nat ∧ String.prefix "/" a.2 = false) pages →
  sorted ((λ a, page_result output_dir a.1 a.2) <$> pages)
  = (λ a, page_result output_dir a.1 a.2) <$> pages
  ∧ ∀ n1 n2,
      String.prefix "/" n1 = false → String.prefix "/" n2 = false →
      sorted [page_result output_dir 98 n1; page_result output_dir 99 n2]
      = [page_result output_dir 99 n2; page_result output_dir 98 n1].
Proof.
  intros Hs Hall. split.
  - apply sorted_of_Sorted.
    induction Hs as [|[i n1] l Hl IH Hhd]; csimpl; [constructor|].
    apply Forall_cons in Hall as [[Hi Hn1] Hall].
    constructor; [by apply IH|].
    destruct Hhd as [|[j n2] l Hij]; csimpl; constructor.
    apply Forall_cons in Hall as [[Hj Hn2] _]. simpl in *.
    by apply page_result_le.
  - intros n1 n2 H1 H2. simpl.
    rewrite !page_result_eq by done.
    unfold String.leb. rewrite compare_app_same. by rewrite compare_app_same.
Qed.

Lemma sorted_keeps_page_order_below_100_witness :
  sorted [page_result "xml" 1 "a.musicxml"; page_result "xml" 9 "b.musicxml";
          page_result "xml" 10 "c.musicxml"]
  = ["xml/page_02/a.musicxml"; "xml/page_10/b.musicxml";
     "xml/page_11/c.musicxml"]%string.
Proof.
  apply (proj1 (sorted_keeps_page_order_below_100 "xml"
                  [(1%nat, "a.musicxml"); (9%nat, "b.musicxml");
                   (10%nat, "c.musicxml")]%string
                  ltac:(repeat constructor) ltac:(repeat constructor; simpl; lia))).
Defined.

(** ** Measures through the combining stage *)

Section CombineMore.

Variable converter_parse : string → list (list Measure).

Lemma append_page_imap (score combined : list (list Measure)) :
  append_page combined score
  = imap (λ i p, p ++ default [] (score !! i)) combined.
Proof.
  destruct (append_page_lookup score combined) as [Hl Hi].
  apply list_eq. intros i. by rewrite Hi, list_lookup_imap.
Qed.

Lemma measure_count_append_page (score combined : list (list Measure)) :
  (length score ≤ length combined)%nat →
  measure_count (append_page combined score)
  = (measure_count combined + measure_count score)%nat.
Proof.
  rewrite append_page_imap. unfold measure_count.
  revert score; induction combined as [|p c IH]; intros score Hlen.
  - destruct score; [done|simpl in Hlen; lia].
  - destruct score as [|s score]; csimpl.
    + rewrite (imap_ext _ (λ i p0, p0 ++ default [] ((@nil (list Measure)) !! i)) c)
        by (intros; by rewrite lookup_nil).
      rewrite IH by (simpl; lia). rewrite app_nil_r. simpl. lia.
    + rewrite (imap_ext _ (λ i p0, p0 ++ default [] (score !! i)) c) by done.
      rewrite IH by (simpl in Hlen; lia). rewrite length_app. unfold id. lia.
Qed.

(** X19.  When no later page has more parts than the first one, combining loses
    no measure and adds none: the combined score has as many measures as
    all the pages together. *)
Theorem combine_conserves_measures (first : string) (others : list string) :
  Forall (λ f, (length (converter_parse f) ≤ length (converter_parse first))%nat)
    others →
  ∃ combined,
    combine_musicxml_pages converter_parse (first :: others) = inr combined
    ∧ measure_count combined
      = sum_list (measure_count <$> (converter_parse <$> first :: others)).
Proof.
  intros Hall. eexists. split; [reflexivity|]. csimpl.
  revert Hall. generalize (converter_parse first) as c.
  induction others as [|f others IH]; intros c Hall; csimpl; [lia|].
  apply Forall_cons in Hall as [Hf Hall].
  destruct (append_page_lookup (converter_parse f) c) as [Hl _].
  rewrite IH by (by rewrite Hl).
  rewrite measure_count_append_page by done. unfold id. lia.
Qed.

End CombineMore.

Lemma combine_conserves_measures_witness :
  let pages := λ f : string,
                 if String.eqb f "p2" then [three_measures; quiet_part]
                 else [quiet_part] in
  ∃ combined,
    combine_musicxml_pages pages ["p2"; "p3"; "p4"]%string = inr combined
    ∧ measure_count combined = 6%nat.
Proof.
  intros pages.
  apply (combine_conserves_measures pages "p2" ["p3"; "p4"]%string).
  repeat constructor.
Defined.
